(** * Glitch grid sketch (public/script.js): layout, glitch spread, beat flash

    A shallow embedding of the sketch's globals and of its handlers
    ([setup], [draw], [mousePressed], [spreadGlitch] and the button
    callbacks) together with the host's clock and timer queue, followed by
    the properties of the partition, of the glitch wave and of the beat
    detector.

    The audio level and the beat detector that reads it are modelled in
    binary64, the arithmetic of JavaScript numbers, since the detector
    compares and floors at values that rounding moves.  The times, positions
    and sizes that the states carry are modelled in exact arithmetic as [Q],
    and the integers the sketch uses as indices, depths and counters as [Z];
    the recompute of the partition is given a second time in binary64, for
    the equalities that rounding decides.  Calls that only draw or only
    drive the audio graph do not touch the globals and are left out. *)

From Stdlib Require Import Floats.
From Stdlib Require Import ZArith QArith Qround Qpower Lqa Lia Bool.
From Stdlib Require Uint63.
From stdpp Require Import base option list list_numbers sorting.

Set Warnings "-inexact-float".

Local Open Scope Z_scope.

(** ** Globals that the sketch never reassigns (script.js 8-21, 44) *)

Definition cols : Z := 15.
Definition rows : Z := 10.
Definition contrast : Z := 3.
Definition glitchDuration : Q := 1000.
Definition glitchOverlayDuration : Q := 300.
Definition width : Q := 1200.
Definition height : Q := 800.

(** ** JavaScript arrays and comparisons *)

(** [x < y] on numbers. *)
Definition Qlt_bool (x y : Q) : bool := negb (Qle_bool y x).

(** [a[i]]: [None] stands for [undefined]. *)
Definition at_index {A} (a : list A) (i : Z) : option A :=
  if i <? 0 then None else a !! Z.to_nat i.

(** [a[i][j]] as a value: [None] when the entry does not exist. *)
Definition at2 {A} (a : list (list A)) (i j : Z) : option A :=
  row ← at_index a i; at_index row j.

(** [a[i][j] = v] on an entry that exists.  [None] marks an index outside
    the array: for a missing row JavaScript raises a TypeError, for a missing
    column it would grow the row instead of updating an entry. *)
Definition store2 {A} (a : list (list A)) (i j : Z) (v : A)
  : option (list (list A)) :=
  row ← at_index a i;
  _ ← at_index row j;
  Some (<[Z.to_nat i := <[Z.to_nat j := v]> row]> a).

(** ** Binary64 numbers *)

(** JavaScript numbers are the kernel's binary64 floats [float], and a
    decimal literal is the number nearest to it, as in JavaScript. *)

(** Modelled from the spec: p5's [floor] is not part of the repository; it
    is [Math.floor].  Its result bounds a counting loop and is given as an
    integer: the floor of a finite number, and 0 for a zero and for a NaN,
    which no counter is below.  An infinite bound, which no level of
    [0, 1] gives, reads as 0 as well. *)
Definition floorZ (x : float) : Z :=
  match Prim2SF x with
  | S754_finite negative m e =>
      if 0 <=? e then
        if negative then - (Z.pos m * 2 ^ e) else Z.pos m * 2 ^ e
      else if negative then - Z.shiftr (Z.pos m + 2 ^ (- e) - 1) (- e)
      else Z.shiftr (Z.pos m) (- e)
  | _ => 0
  end.

(** ** p5 library functions *)

(** Modelled from the spec: p5's [map(n, start1, stop1, start2, stop2)] is
    not part of the repository; it is the linear map of the p5 reference,
    computed in binary64 in the order of its source,
    [(n - start1) / (stop1 - start1) * (stop2 - start2) + start2], and it
    does not clamp when the sixth argument is omitted. *)
Definition p5map (n start1 stop1 start2 stop2 : float) : float :=
  ((n - start1) / (stop1 - start1) * (stop2 - start2) + start2)%float.

(** Modelled from the spec: p5's [random(max)] is not part of the
    repository; it scales a unit sample [r] of [0 <= r < 1] to [r * max]. *)
Definition p5random (r : Q) (max : Z) : Q := (r * inject_Z max)%Q.

(** ** The sketch's state *)

(** A pending [setTimeout] callback of [spreadGlitch]: the host time at which
    it becomes due and the variables its closure captured. *)
Record Timer := mkTimer {
  tm_due : Q;
  tm_i : Z;
  tm_j : Z;
  tm_depth : Z
}.

(** The globals of script.js 8-32 that change, and the host's part: [clock]
    is the time [millis()] reads, constant while a handler runs, and
    [timers] the queue of pending spread callbacks in registration order. *)
Record State := mkState {
  grid : list (list bool);
  colWidths : list Q;
  rowHeights : list Q;
  t : Q;
  playing : bool;
  glitchActive : bool;
  glitchCells : list (Z * Z);
  glitchStart : Q;
  glitchOverlayStart : Q;
  glitchOverlayActive : bool;
  lastLevel : float;
  beatFlash : list (list Z);
  clock : Q;
  timers : list Timer
}.

Definition set_grid (v : list (list bool)) (s : State) : State :=
  {| grid := v; colWidths := colWidths s; rowHeights := rowHeights s;
     t := t s; playing := playing s; glitchActive := glitchActive s;
     glitchCells := glitchCells s; glitchStart := glitchStart s;
     glitchOverlayStart := glitchOverlayStart s;
     glitchOverlayActive := glitchOverlayActive s; lastLevel := lastLevel s;
     beatFlash := beatFlash s; clock := clock s; timers := timers s |}.

Definition set_colWidths (v : list Q) (s : State) : State :=
  {| grid := grid s; colWidths := v; rowHeights := rowHeights s; t := t s;
     playing := playing s; glitchActive := glitchActive s;
     glitchCells := glitchCells s; glitchStart := glitchStart s;
     glitchOverlayStart := glitchOverlayStart s;
     glitchOverlayActive := glitchOverlayActive s; lastLevel := lastLevel s;
     beatFlash := beatFlash s; clock := clock s; timers := timers s |}.

Definition set_rowHeights (v : list Q) (s : State) : State :=
  {| grid := grid s; colWidths := colWidths s; rowHeights := v; t := t s;
     playing := playing s; glitchActive := glitchActive s;
     glitchCells := glitchCells s; glitchStart := glitchStart s;
     glitchOverlayStart := glitchOverlayStart s;
     glitchOverlayActive := glitchOverlayActive s; lastLevel := lastLevel s;
     beatFlash := beatFlash s; clock := clock s; timers := timers s |}.

Definition set_t (v : Q) (s : State) : State :=
  {| grid := grid s; colWidths := colWidths s; rowHeights := rowHeights s;
     t := v; playing := playing s; glitchActive := glitchActive s;
     glitchCells := glitchCells s; glitchStart := glitchStart s;
     glitchOverlayStart := glitchOverlayStart s;
     glitchOverlayActive := glitchOverlayActive s; lastLevel := lastLevel s;
     beatFlash := beatFlash s; clock := clock s; timers := timers s |}.

Definition set_playing (v : bool) (s : State) : State :=
  {| grid := grid s; colWidths := colWidths s; rowHeights := rowHeights s;
     t := t s; playing := v; glitchActive := glitchActive s;
     glitchCells := glitchCells s; glitchStart := glitchStart s;
     glitchOverlayStart := glitchOverlayStart s;
     glitchOverlayActive := glitchOverlayActive s; lastLevel := lastLevel s;
     beatFlash := beatFlash s; clock := clock s; timers := timers s |}.

Definition set_glitchActive (v : bool) (s : State) : State :=
  {| grid := grid s; colWidths := colWidths s; rowHeights := rowHeights s;
     t := t s; playing := playing s; glitchActive := v;
     glitchCells := glitchCells s; glitchStart := glitchStart s;
     glitchOverlayStart := glitchOverlayStart s;
     glitchOverlayActive := glitchOverlayActive s; lastLevel := lastLevel s;
     beatFlash := beatFlash s; clock := clock s; timers := timers s |}.

Definition set_glitchCells (v : list (Z * Z)) (s : State) : State :=
  {| grid := grid s; colWidths := colWidths s; rowHeights := rowHeights s;
     t := t s; playing := playing s; glitchActive := glitchActive s;
     glitchCells := v; glitchStart := glitchStart s;
     glitchOverlayStart := glitchOverlayStart s;
     glitchOverlayActive := glitchOverlayActive s; lastLevel := lastLevel s;
     beatFlash := beatFlash s; clock := clock s; timers := timers s |}.

Definition set_glitchStart (v : Q) (s : State) : State :=
  {| grid := grid s; colWidths := colWidths s; rowHeights := rowHeights s;
     t := t s; playing := playing s; glitchActive := glitchActive s;
     glitchCells := glitchCells s; glitchStart := v;
     glitchOverlayStart := glitchOverlayStart s;
     glitchOverlayActive := glitchOverlayActive s; lastLevel := lastLevel s;
     beatFlash := beatFlash s; clock := clock s; timers := timers s |}.

Definition set_glitchOverlayStart (v : Q) (s : State) : State :=
  {| grid := grid s; colWidths := colWidths s; rowHeights := rowHeights s;
     t := t s; playing := playing s; glitchActive := glitchActive s;
     glitchCells := glitchCells s; glitchStart := glitchStart s;
     glitchOverlayStart := v; glitchOverlayActive := glitchOverlayActive s;
     lastLevel := lastLevel s; beatFlash := beatFlash s; clock := clock s;
     timers := timers s |}.

Definition set_glitchOverlayActive (v : bool) (s : State) : State :=
  {| grid := grid s; colWidths := colWidths s; rowHeights := rowHeights s;
     t := t s; playing := playing s; glitchActive := glitchActive s;
     glitchCells := glitchCells s; glitchStart := glitchStart s;
     glitchOverlayStart := glitchOverlayStart s; glitchOverlayActive := v;
     lastLevel := lastLevel s; beatFlash := beatFlash s; clock := clock s;
     timers := timers s |}.

Definition set_lastLevel (v : float) (s : State) : State :=
  {| grid := grid s; colWidths := colWidths s; rowHeights := rowHeights s;
     t := t s; playing := playing s; glitchActive := glitchActive s;
     glitchCells := glitchCells s; glitchStart := glitchStart s;
     glitchOverlayStart := glitchOverlayStart s;
     glitchOverlayActive := glitchOverlayActive s; lastLevel := v;
     beatFlash := beatFlash s; clock := clock s; timers := timers s |}.

Definition set_beatFlash (v : list (list Z)) (s : State) : State :=
  {| grid := grid s; colWidths := colWidths s; rowHeights := rowHeights s;
     t := t s; playing := playing s; glitchActive := glitchActive s;
     glitchCells := glitchCells s; glitchStart := glitchStart s;
     glitchOverlayStart := glitchOverlayStart s;
     glitchOverlayActive := glitchOverlayActive s; lastLevel := lastLevel s;
     beatFlash := v; clock := clock s; timers := timers s |}.

Definition set_clock (v : Q) (s : State) : State :=
  {| grid := grid s; colWidths := colWidths s; rowHeights := rowHeights s;
     t := t s; playing := playing s; glitchActive := glitchActive s;
     glitchCells := glitchCells s; glitchStart := glitchStart s;
     glitchOverlayStart := glitchOverlayStart s;
     glitchOverlayActive := glitchOverlayActive s; lastLevel := lastLevel s;
     beatFlash := beatFlash s; clock := v; timers := timers s |}.

Definition set_timers (v : list Timer) (s : State) : State :=
  {| grid := grid s; colWidths := colWidths s; rowHeights := rowHeights s;
     t := t s; playing := playing s; glitchActive := glitchActive s;
     glitchCells := glitchCells s; glitchStart := glitchStart s;
     glitchOverlayStart := glitchOverlayStart s;
     glitchOverlayActive := glitchOverlayActive s; lastLevel := lastLevel s;
     beatFlash := beatFlash s; clock := clock s; timers := v |}.
(** ** setup (script.js 43-99) *)

Definition setup : State :=
  {| grid := replicate (Z.to_nat cols) (replicate (Z.to_nat rows) false);
     colWidths := replicate (Z.to_nat cols) (width / inject_Z cols)%Q;
     rowHeights := replicate (Z.to_nat rows) (height / inject_Z rows)%Q;
     t := 0; playing := false; glitchActive := false; glitchCells := [];
     glitchStart := 0; glitchOverlayStart := 0; glitchOverlayActive := false;
     lastLevel := 0%float; beatFlash :=
       replicate (Z.to_nat cols) (replicate (Z.to_nat rows) 0);
     clock := 0; timers := [] |}.

(** The play/pause button (script.js 70-82): [playing = !playing]. *)
Definition playPausePressed (s : State) : State :=
  set_playing (negb (playing s)) s.

(** The clear button (script.js 87-93). *)
Definition clearPressed (s : State) : State :=
  set_grid (replicate (Z.to_nat cols) (replicate (Z.to_nat rows) false)) s.

(** ** Noise-driven partition (script.js 115-134) *)

(** [raw.reduce((a, b) => a + b, 0)] *)
Definition reduce_sum (l : list Q) : Q := foldl Qplus 0%Q l.

(** [pow(n, contrast) * strengthSlider.value() + 0.0001] *)
Definition rawWeight (n strength : Q) : Q :=
  (n ^ contrast * strength + 0.0001)%Q.

(** The second loop of each recompute: [sizes[i] = raw[i] / sum * extent]
    for every index of [raw]. *)
Definition normalize (raw : list Q) (extent : Q) : list Q :=
  let sum := reduce_sum raw in
  (fun r => (r / sum * extent)%Q) <$> raw.

(** ** The partition in binary64 (script.js 115-134) *)

(** The states below carry the partition in exact arithmetic.  The
    definitions of this part read the same lines as JavaScript computes
    them, with the rounding of every operation. *)






Section Binary64.

(** p5's [noise(x, y)] and [pow(n, e)]: library functions. *)
Variable noise : float -> float -> float.
Variable pow : float -> float -> float.





End Binary64.

(** ** spreadGlitch (script.js 245-261) *)

Definition spreadGlitch (i j depth : Z) (s : State) : State :=
  if (depth <=? 0) || (i <? 0) || (i >=? cols) || (j <? 0) || (j >=? rows)
  then s
  else if negb (default false (at2 (grid s) i j)) then s
  else
    set_timers (timers s ++ [mkTimer (clock s + 40)%Q i j depth])
      (set_glitchCells (glitchCells s ++ [(i, j)]) s).

(** The body of the arrow function handed to [setTimeout]: the two loops
    over [di] and [dj] in [-1, 1]. *)
Definition spreadCallback (i j depth : Z) (s : State) : State :=
  foldl (fun s di =>
    foldl (fun s dj =>
      if negb (di =? 0) || negb (dj =? 0)
      then spreadGlitch (i + di) (j + dj) (depth - 1) s
      else s) s (seqZ (-1) 3)) s (seqZ (-1) 3).

(** The host runs the oldest pending callback once it is due. *)
Definition fireTimer (s : State) : option State :=
  match timers s with
  | [] => None
  | tm :: rest =>
      if Qle_bool (tm_due tm) (clock s)
      then Some (spreadCallback (tm_i tm) (tm_j tm) (tm_depth tm)
                   (set_timers rest s))
      else None
  end.

(** ** mousePressed (script.js 210-242) *)

(** The scan [for (i = 0; i < n; i++)] over the partition [sizes]: the index
    of the first interval [[acc, acc + sizes[i])] that holds [pos], or [-1].
    On an [undefined] size every later comparison is false. *)
Fixpoint scanFrom (fuel : nat) (i : Z) (acc pos : Q) (sizes : list Q) : Z :=
  match fuel with
  | O => -1
  | S fuel' =>
      match at_index sizes i with
      | None => -1
      | Some w =>
          if Qle_bool acc pos && Qlt_bool pos (acc + w) then i
          else scanFrom fuel' (i + 1) (acc + w)%Q pos sizes
      end
  end.

Definition scan (n : Z) (pos : Q) (sizes : list Q) : Z :=
  scanFrom (Z.to_nat n) 0 0%Q pos sizes.

(** [grid[ci][rj] = !grid[ci][rj]]; the scans give [ci < cols] and
    [rj < rows], so the entry exists in the grid [setup] builds. *)
Definition toggle (ci rj : Z) (g : list (list bool)) : list (list bool) :=
  match at2 g ci rj with
  | Some b => default g (store2 g ci rj (negb b))
  | None => g
  end.

Definition mousePressed (mouseX mouseY : Q) (s : State) : State :=
  let ci := scan cols mouseX (colWidths s) in
  let rj := scan rows mouseY (rowHeights s) in
  if (ci >=? 0) && (rj >=? 0) then
    if playing s then
      spreadGlitch ci rj 3
        (set_glitchOverlayStart (clock s)
          (set_glitchOverlayActive true
            (set_glitchStart (clock s)
              (set_glitchActive true
                (set_glitchCells [] s)))))
    else set_grid (toggle ci rj (grid s)) s
  else s.

(** ** draw (script.js 101-208) *)

(** What one frame reads from its environment: the two sliders, the level
    [amplitude.getLevel()] returns and the unit samples behind the calls of
    [random] in the beat loop, in call order. *)
Record FrameInput := mkFrameInput {
  in_speed : Q;
  in_strength : Q;
  in_level : float;
  in_random : Z -> Q
}.

(** Lines 106-109. *)
Definition expireGlitch (s : State) : State :=
  if glitchActive s && Qlt_bool (glitchStart s + glitchDuration) (clock s)
  then set_glitchCells [] (set_glitchActive false s)
  else s.

(** Line 112. *)
Definition advanceTime (speed : Q) (s : State) : State :=
  if playing s then set_t (t s + speed) s else s.

(** Lines 145-152 for one cell: a flashing cell is drawn and counted down. *)
Definition tickCell (i j : Z) (bf : list (list Z)) : list (list Z) :=
  match at2 bf i j with
  | Some v => if v >? 0 then default bf (store2 bf i j (v - 1)) else bf
  | None => bf
  end.

(** Lines 137-174, rows outside and columns inside, as far as the flash
    counters go. *)
Definition tickFlash (bf : list (list Z)) : list (list Z) :=
  foldl (fun bf j => foldl (fun bf i => tickCell i j bf) bf (seqZ 0 cols))
    bf (seqZ 0 rows).

Definition renderPass (s : State) : State :=
  set_beatFlash (tickFlash (beatFlash s)) s.

(** Line 199. *)
Definition flashCount (level : float) : Z :=
  floorZ (p5map level 0 0.4 0 15).

(** Lines 202-203: the cell that iteration [k] of the beat loop draws, its
    column first. *)
Definition beatPick (rnd : Z -> Q) (k : Z) : Z * Z :=
  (Qfloor (p5random (rnd (2 * k)) cols),
   Qfloor (p5random (rnd (2 * k + 1)) rows)).

(** Lines 201-205. *)
Definition beatLoop (rnd : Z -> Q) (n : Z) (bf : list (list Z))
  : option (list (list Z)) :=
  foldl (fun acc k =>
           bf' ← acc; store2 bf' (beatPick rnd k).1 (beatPick rnd k).2 4)
        (Some bf) (seqZ 0 n).

(** Lines 198-207. *)
Definition beatPass (level : float) (rnd : Z -> Q) (s : State)
  : option State :=
  bf ← (if (0.1 <? level - lastLevel s)%float
        then beatLoop rnd (flashCount level) (beatFlash s)
        else Some (beatFlash s));
  Some (set_lastLevel level (set_beatFlash bf s)).

Section Draw.

(** p5's [noise(x, y)]: a library function, known only by its range. *)
Variable noise : Q -> Q -> Q.

(** [raw[i] = pow(noise(i * 0.1, time), contrast) * strength + 0.0001] for
    [i] below [n]. *)
Definition rawWeights (n : Z) (time strength : Q) : list Q :=
  (fun i : Z => rawWeight (noise (inject_Z i * 0.1) time) strength)
    <$> seqZ 0 n.

(** Lines 115-134: the columns sample the noise at [t], the rows at
    [t + 100]. *)
Definition recomputePartition (strength : Q) (s : State) : State :=
  set_rowHeights (normalize (rawWeights rows (t s + 100) strength) height)
    (set_colWidths (normalize (rawWeights cols (t s) strength) width) s).

Definition draw (inp : FrameInput) (s : State) : option State :=
  beatPass (in_level inp) (in_random inp)
    (renderPass
       (recomputePartition (in_strength inp)
          (advanceTime (in_speed inp) (expireGlitch s)))).

(** ** The host's event loop *)

Inductive Event :=
  | EvTick (dt : Q)
  | EvFrame (inp : FrameInput)
  | EvMouse (mouseX mouseY : Q)
  | EvTimer
  | EvPlayPause
  | EvClear.

Definition step (e : Event) (s : State) : option State :=
  match e with
  | EvTick dt =>
      if Qle_bool 0 dt then Some (set_clock (clock s + dt) s) else None
  | EvFrame inp => draw inp s
  | EvMouse mouseX mouseY => Some (mousePressed mouseX mouseY s)
  | EvTimer => fireTimer s
  | EvPlayPause => Some (playPausePressed s)
  | EvClear => Some (clearPressed s)
  end.

Fixpoint run (es : list Event) (s : State) : option State :=
  match es with
  | [] => Some s
  | e :: es' => s' ← step e s; run es' s'
  end.

End Draw.

(** ** Following one wave *)

(** The clock reaches the due time of the oldest pending callback. *)
Definition waitDue (s : State) : State :=
  match timers s with
  | [] => s
  | tm :: _ =>
      if Qle_bool (tm_due tm) (clock s) then s else set_clock (tm_due tm) s
  end.

(** The host waits for the oldest pending callback and runs it; with none
    pending nothing happens. *)
Definition fireNext (s : State) : State :=
  default s (fireTimer (waitDue s)).

Fixpoint runWave (n : nat) (s : State) : State :=
  match n with
  | O => s
  | S n' => runWave n' (fireNext s)
  end.

(** A bound on the callbacks that a pending callback of depth [n + 1]
    stands for: itself and those of its eight neighbours. *)
Fixpoint ringWeight (n : nat) : nat :=
  match n with
  | O => 1
  | S n' => 1 + 8 * ringWeight n'
  end.

Definition timerWeight (tm : Timer) : nat :=
  ringWeight (Z.to_nat (tm_depth tm - 1)).

Definition waveWeight (s : State) : nat :=
  foldr (fun tm n => (timerWeight tm + n)%nat) O (timers s).

(** The number of rings between two cells. *)
Definition ringDist (a b : Z * Z) : Z :=
  Z.max (Z.abs (a.1 - b.1)) (Z.abs (a.2 - b.2)).

Definition inGrid (c : Z * Z) : Prop :=
  0 <= c.1 < cols /\ 0 <= c.2 < rows.

Definition filled (g : list (list bool)) (c : Z * Z) : Prop :=
  at2 g c.1 c.2 = Some true.

(** An array of [cols] rows of [rows] entries, as [setup] builds them. *)
Definition shaped {A} (a : list (list A)) : Prop :=
  length a = Z.to_nat cols /\ Forall (fun row => length row = Z.to_nat rows) a.

(** No flash counter is negative. *)
Definition flashNonneg (bf : list (list Z)) : Prop :=
  forall i j v, at2 bf i j = Some v -> 0 <= v.

(** Unit samples for the examples: the picks of the beat loop sweep the
    grid row by row, iteration [k] drawing cell
    [(k mod cols, k / cols mod rows)]. *)
Definition sweepRandom (n : Z) : Q :=
  if Z.even n
  then (inject_Z ((n / 2) mod cols) / inject_Z cols)%Q
  else (inject_Z ((n / 2 / cols) mod rows) / inject_Z rows)%Q.



(** The cells in the order in which the render pass visits them. *)
Definition allCells : list (Z * Z) :=
  j ← seqZ 0 rows; i ← seqZ 0 cols; [(i, j)].

(** The countdown of one counter in a frame. *)
Definition tick (v : Z) : Z := if v >? 0 then v - 1 else v.

(** A session for the examples: a click at pixel (200, 200) while paused
    fills cell (2, 2) of the grid of [setup], then the music is started. *)
Definition only22 : State := playPausePressed (mousePressed 200 200 setup).

(** The session of [only22] after a click on cell (2, 2), half a second
    later: the glitch session and the overlay are active. *)
Definition midSession : State := set_clock 500 (mousePressed 200 200 only22).

(** A click on cell (2, 2) with cell (3, 3) filled as well, one and a half
    seconds later and with its first callback still pending: the host ran no
    timer in between. *)
Definition lateSession : State :=
  set_clock 1500
    (mousePressed 200 200
       (set_grid (toggle 3 3 (grid only22)) only22)).

(** Every glitch cell of [s] that [old] does not hold satisfies [P]. *)
Definition newCells (P : Z * Z -> Prop) (old : list (Z * Z)) (s : State)
  : Prop :=
  forall c, c ∈ glitchCells s -> c ∈ old \/ P c.

(** The grid is still [g] and the cells added since [old] are filled cells
    of it. *)
Definition gated (g : list (list bool)) (old : list (Z * Z)) (s : State)
  : Prop :=
  grid s = g /\ newCells (fun c => inGrid c /\ filled g c) old s.

(** The wave of depth [maxDepth] from [origin]: a pending callback of depth
    [d] sits at most [maxDepth - d] rings out, an added cell at most
    [maxDepth - 1]. *)
Definition withinRings (origin : Z * Z) (maxDepth : Z) (old : list (Z * Z))
    (s : State) : Prop :=
  (forall tm, tm ∈ timers s ->
     ringDist (tm_i tm, tm_j tm) origin <= maxDepth - tm_depth tm)
  /\ newCells (fun c => ringDist c origin <= maxDepth - 1) old s.

(** ** Layout offsets *)

(** The value of [xAcc] or [yAcc] when the scan of [mousePressed] reaches
    index [i]: the sum of the sizes before it. *)
Definition offset (sizes : list Q) (i : Z) : Q :=
  reduce_sum (take (Z.to_nat i) sizes).

(** ** The render pass in full (script.js 136-174) *)

(** How a cell is drawn: flashing (lines 145-152), jittering in a glitch
    colour (156-160), inverted while a session is active (161-164) or in its
    normal state (165-169). *)
Inductive CellMode := Flashing | Glitching | Inverted | Normal.

(** One call of [rect]: the cell, the corner [(xOff, yOff)] and the size
    [(w, h)] of its slot, the mode, and the grid entry that picks the fill.
    The flashing mode scales the size by the pulse and the glitching mode
    shifts the corner by a random offset; both belong to the host. *)
Record Slot := mkSlot {
  slot_i : Z;
  slot_j : Z;
  slot_x : Q;
  slot_y : Q;
  slot_w : Q;
  slot_h : Q;
  slot_mode : CellMode;
  slot_filled : bool
}.

(** [glitchCells.some(c => c.i === i && c.j === j)] *)
Definition inGlitchCells (cells : list (Z * Z)) (i j : Z) : bool :=
  existsb (fun c => (c.1 =? i) && (c.2 =? j)) cells.

(** The branches of lines 145-169 in their order; [bf] holds the counters
    as the pass has left them so far, and a missing counter compares false
    with 0. *)
Definition cellMode (s : State) (bf : list (list Z)) (i j : Z) : CellMode :=
  if default false ((fun v => v >? 0) <$> at2 bf i j) then Flashing
  else if glitchActive s && inGlitchCells (glitchCells s) i j then Glitching
  else if glitchActive s then Inverted
  else Normal.

(** [colWidths[i]] and [rowHeights[j]] as the loops read them.  The
    partition has [cols] widths and [rows] heights from [setup] on, so the
    entries exist; a missing one reads as 0 here. *)
Definition sizeAt (sizes : list Q) (i : Z) : Q :=
  default 0%Q (at_index sizes i).

(** The body of the inner loop: the accumulator holds [xOff], the counters
    and the calls of [rect] so far. *)
Definition renderCell (s : State) (j : Z) (yOff : Q)
    (acc : Q * list (list Z) * list Slot) (i : Z)
  : Q * list (list Z) * list Slot :=
  let '(xOff, bf, out) := acc in
  let w := sizeAt (colWidths s) i in
  let h := sizeAt (rowHeights s) j in
  ((xOff + w)%Q, tickCell i j bf,
   out ++ [mkSlot i j xOff yOff w h (cellMode s bf i j)
             (default false (at2 (grid s) i j))]).

(** The body of the outer loop: [xOff] starts at 0 in every row, and [yOff]
    grows by the height of the row. *)
Definition renderRow (s : State) (acc : Q * list (list Z) * list Slot) (j : Z)
  : Q * list (list Z) * list Slot :=
  let '(yOff, bf, out) := acc in
  let '(_, bf', out') :=
    foldl (renderCell s j yOff) (0%Q, bf, out) (seqZ 0 cols) in
  ((yOff + sizeAt (rowHeights s) j)%Q, bf', out').

(** The pass: the counters it leaves and the calls of [rect] in order. *)
Definition renderFrame (s : State) : list (list Z) * list Slot :=
  let '(_, bf, out) :=
    foldl (renderRow s) (0%Q, beatFlash s, []) (seqZ 0 rows) in
  (bf, out).

(** The slot of a cell read off the state before the pass: its corner is
    the sum of the widths and heights before it. *)
Definition slotOf (s : State) (c : Z * Z) : Slot :=
  mkSlot c.1 c.2 (offset (colWidths s) c.1) (offset (rowHeights s) c.2)
    (sizeAt (colWidths s) c.1) (sizeAt (rowHeights s) c.2)
    (cellMode s (beatFlash s) c.1 c.2)
    (default false (at2 (grid s) c.1 c.2)).

(** ** The overlay (script.js 177) *)

(** The test that guards the colour-split overlay of a frame. *)
Definition overlayShown (s : State) : bool :=
  glitchOverlayActive s
  && Qlt_bool (clock s - glitchOverlayStart s) glitchOverlayDuration.

(** ** Invariants of the event loop *)

(** The pending callbacks are queued in the order of their due times, and
    none is due more than 40 ms from now. *)
Definition timersOrdered (s : State) : Prop :=
  StronglySorted (fun a b => (tm_due a <= tm_due b)%Q) (timers s)
  /\ Forall (fun tm => (tm_due tm <= clock s + 40)%Q) (timers s).

(** The grid and the flash counters have the dimensions [setup] gave them. *)
Definition wellShaped (s : State) : Prop :=
  shaped (grid s) /\ shaped (beatFlash s).

(** Every flash counter lies between 0 and 4. *)
Definition flashBounded (bf : list (list Z)) : Prop :=
  forall i j v, at2 bf i j = Some v -> 0 <= v <= 4.

(** The glitch cells that the pending callbacks can still add: a callback
    stands for itself and its descendants, each of which but itself was
    registered together with a cell. *)
Definition cellBudget (s : State) : nat :=
  foldr (fun tm n => (timerWeight tm - 1 + n)%nat) O (timers s).

(** ** Proof automation *)

(** Projections of updated states. *)
Ltac state_simpl :=
  cbn [grid colWidths rowHeights t playing glitchActive glitchCells
       glitchStart glitchOverlayStart glitchOverlayActive lastLevel beatFlash
       clock timers set_grid set_colWidths set_rowHeights set_t set_playing
       set_glitchActive set_glitchCells set_glitchStart set_glitchOverlayStart
       set_glitchOverlayActive set_lastLevel set_beatFlash set_clock
       set_timers] in *.

(** Closed (in)equations between rational constants. *)
Ltac Qclosed := let H := fresh in intros H; vm_compute in H; discriminate H.

(** * Properties *)

(** ** Comparisons and arrays *)

Lemma Qlt_bool_iff (x y : Q) : Qlt_bool x y = true <-> (x < y)%Q.
Proof.
  unfold Qlt_bool. rewrite negb_true_iff, <- not_true_iff_false, Qle_bool_iff.
  split; [apply Qnot_le_lt | apply Qlt_not_le].
Qed.

Lemma Qlt_bool_false (x y : Q) : Qlt_bool x y = false <-> (y <= x)%Q.
Proof.
  unfold Qlt_bool. rewrite negb_false_iff. apply Qle_bool_iff.
Qed.

Lemma at_index_Some {A} (a : list A) (i : Z) (x : A) :
  at_index a i = Some x <-> 0 <= i /\ a !! Z.to_nat i = Some x.
Proof.
  unfold at_index. destruct (Z.ltb_spec i 0); intuition (try discriminate; lia).
Qed.

Lemma at_index_lt {A} (a : list A) (i : Z) (x : A) :
  at_index a i = Some x -> 0 <= i < Z.of_nat (length a).
Proof.
  rewrite at_index_Some. intros [Hi Hx]. apply lookup_lt_Some in Hx. lia.
Qed.

(** ** The partition *)

Lemma foldl_Qplus_acc (l : list Q) (a : Q) :
  (foldl Qplus a l == a + reduce_sum l)%Q.
Proof.
  unfold reduce_sum. revert a. induction l as [|x l IH]; intros a; simpl.
  - lra.
  - rewrite (IH (a + x)%Q), (IH (0 + x)%Q). lra.
Qed.

Lemma reduce_sum_cons (x : Q) (l : list Q) :
  (reduce_sum (x :: l) == x + reduce_sum l)%Q.
Proof.
  unfold reduce_sum at 1. simpl. rewrite foldl_Qplus_acc. lra.
Qed.

Lemma reduce_sum_normalized (l : list Q) (sum extent : Q) :
  ~ (sum == 0)%Q ->
  (reduce_sum ((fun r => r / sum * extent) <$> l)
   == reduce_sum l / sum * extent)%Q.
Proof.
  intros Hsum. induction l as [|x l IH]; simpl.
  - unfold reduce_sum. simpl. field. exact Hsum.
  - rewrite !reduce_sum_cons, IH. field. exact Hsum.
Qed.

Lemma reduce_sum_pos (l : list Q) :
  l <> [] -> Forall (fun r => 0 < r)%Q l -> (0 < reduce_sum l)%Q.
Proof.
  intros Hne Hall. induction Hall as [|x l Hx Hall IH]; [done|].
  rewrite reduce_sum_cons. destruct l as [|y l].
  - unfold reduce_sum. simpl. lra.
  - assert (0 < reduce_sum (y :: l))%Q by (apply IH; done). lra.
Qed.

Lemma normalize_pos (raw : list Q) (extent : Q) :
  raw <> [] -> Forall (fun r => 0 < r)%Q raw -> (0 < extent)%Q ->
  Forall (fun w => 0 < w)%Q (normalize raw extent).
Proof.
  intros Hne Hraw Hext. pose proof (reduce_sum_pos raw Hne Hraw) as Hsum.
  unfold normalize. apply Forall_fmap. eapply Forall_impl; [exact Hraw|].
  intros r Hr. simpl in *. apply Qmult_lt_0_compat; [|exact Hext].
  apply Qlt_shift_div_l; [exact Hsum | lra].
Qed.

Lemma normalize_sum (raw : list Q) (extent : Q) :
  raw <> [] -> Forall (fun r => 0 < r)%Q raw ->
  (reduce_sum (normalize raw extent) == extent)%Q.
Proof.
  intros Hne Hraw. pose proof (reduce_sum_pos raw Hne Hraw) as Hsum.
  unfold normalize. rewrite reduce_sum_normalized by lra. field. lra.
Qed.

Lemma rawWeight_pos (n strength : Q) :
  (0 <= n)%Q -> (0 <= strength)%Q -> (0 < rawWeight n strength)%Q.
Proof.
  intros Hn Hs. unfold rawWeight.
  assert (0 <= n ^ contrast * strength)%Q.
  { apply Qmult_le_0_compat; [apply Qpower_0_le; exact Hn | exact Hs]. }
  lra.
Qed.

Lemma rawWeights_length (noise : Q -> Q -> Q) (n : Z) (time strength : Q) :
  length (rawWeights noise n time strength) = Z.to_nat n.
Proof. unfold rawWeights. by rewrite length_fmap, length_seqZ. Qed.

Lemma rawWeights_nonempty (noise : Q -> Q -> Q) (n : Z) (time strength : Q) :
  0 < n -> rawWeights noise n time strength <> [].
Proof.
  intros Hn Hnil. apply (f_equal length) in Hnil.
  rewrite rawWeights_length in Hnil. simpl in Hnil. lia.
Qed.

Lemma rawWeights_pos (noise : Q -> Q -> Q) (n : Z) (time strength : Q) :
  (forall x y, 0 <= noise x y <= 1)%Q -> (0 <= strength)%Q ->
  Forall (fun r => 0 < r)%Q (rawWeights noise n time strength).
Proof.
  intros Hnoise Hs. unfold rawWeights. apply Forall_fmap, Forall_forall.
  intros i _. simpl. apply rawWeight_pos; [apply Hnoise | exact Hs].
Qed.

Lemma normalize_length (raw : list Q) (extent : Q) :
  length (normalize raw extent) = length raw.
Proof. unfold normalize. by rewrite length_fmap. Qed.

Lemma recomputePartition_cols (noise : Q -> Q -> Q) (strength : Q) (s : State) :
  colWidths (recomputePartition noise strength s)
  = normalize (rawWeights noise cols (t s) strength) width.
Proof. reflexivity. Qed.

Lemma recomputePartition_rows (noise : Q -> Q -> Q) (strength : Q) (s : State) :
  rowHeights (recomputePartition noise strength s)
  = normalize (rawWeights noise rows (t s + 100) strength) height.
Proof. reflexivity. Qed.

(** C1: one recompute of the partition, for noise samples in [0, 1] and a
    strength that is not negative, leaves [cols] column widths and [rows]
    row heights that are all strictly positive and that add up to the canvas
    width and height (in exact arithmetic). *)
Theorem partition_normalized (noise : Q -> Q -> Q) (strength : Q) (s : State) :
  (forall x y, 0 <= noise x y <= 1)%Q -> (0 <= strength)%Q ->
  let s' := recomputePartition noise strength s in
  (Z.of_nat (length (colWidths s')) = cols
   /\ Forall (fun w => 0 < w)%Q (colWidths s')
   /\ (reduce_sum (colWidths s') == width)%Q)
  /\ (Z.of_nat (length (rowHeights s')) = rows
      /\ Forall (fun h => 0 < h)%Q (rowHeights s')
      /\ (reduce_sum (rowHeights s') == height)%Q).
Proof.
  intros Hnoise Hs. cbv zeta.
  rewrite recomputePartition_cols, recomputePartition_rows. split.
  - split; [by rewrite normalize_length, rawWeights_length|]. split.
    + apply normalize_pos; [by apply rawWeights_nonempty | | done].
      by apply rawWeights_pos.
    + apply normalize_sum; [by apply rawWeights_nonempty |].
      by apply rawWeights_pos.
  - split; [by rewrite normalize_length, rawWeights_length|]. split.
    + apply normalize_pos; [by apply rawWeights_nonempty | | done].
      by apply rawWeights_pos.
    + apply normalize_sum; [by apply rawWeights_nonempty |].
      by apply rawWeights_pos.
Qed.

Lemma partition_normalized_witness :
  let s' := recomputePartition (fun _ _ => 1 # 2)%Q (1 # 2)%Q setup in
  (Z.of_nat (length (colWidths s')) = cols
   /\ Forall (fun w => 0 < w)%Q (colWidths s')
   /\ (reduce_sum (colWidths s') == width)%Q)
  /\ (Z.of_nat (length (rowHeights s')) = rows
      /\ Forall (fun h => 0 < h)%Q (rowHeights s')
      /\ (reduce_sum (rowHeights s') == height)%Q).
Proof.
  apply (partition_normalized (fun _ _ => 1 # 2)%Q (1 # 2)%Q setup).
  - intros x y. split; discriminate.
  - discriminate.
Defined.






(** ** The glitch wave *)

(** What [spreadGlitch] leaves alone. *)
Lemma spreadGlitch_frame (i j depth : Z) (s : State) :
  let s' := spreadGlitch i j depth s in
  grid s' = grid s /\ clock s' = clock s /\ glitchActive s' = glitchActive s
  /\ glitchStart s' = glitchStart s
  /\ glitchOverlayActive s' = glitchOverlayActive s
  /\ glitchOverlayStart s' = glitchOverlayStart s
  /\ playing s' = playing s /\ beatFlash s' = beatFlash s.
Proof.
  unfold spreadGlitch.
  destruct (_ || _); [done|]. by destruct (negb _).
Qed.

(** The two outcomes of a call: a no-op, or one cell pushed and one callback
    registered, the latter only for a positive depth and a filled cell of
    the grid. *)
Lemma spreadGlitch_cases (i j depth : Z) (s : State) :
  spreadGlitch i j depth s = s
  \/ (0 < depth /\ inGrid (i, j) /\ filled (grid s) (i, j)
      /\ spreadGlitch i j depth s
         = set_timers (timers s ++ [mkTimer (clock s + 40)%Q i j depth])
             (set_glitchCells (glitchCells s ++ [(i, j)]) s)).
Proof.
  unfold spreadGlitch, inGrid, filled. simpl.
  destruct (Z.leb_spec depth 0); [by left|].
  destruct (Z.ltb_spec i 0); [by left|].
  destruct (Z.geb_spec i cols); [by left|].
  destruct (Z.ltb_spec j 0); [by left|].
  destruct (Z.geb_spec j rows); [by left|]. simpl.
  destruct (at2 (grid s) i j) as [[|]|]; simpl; [right | by left | by left].
  repeat split; lia.
Qed.

Lemma spreadGlitch_depth_0 (i j depth : Z) (s : State) :
  depth <= 0 -> spreadGlitch i j depth s = s.
Proof.
  intros Hd. unfold spreadGlitch. by destruct (Z.leb_spec depth 0); [|lia].
Qed.

(** The loops of the callback, unrolled: eight calls, in the order in which
    the source makes them. *)
Lemma spreadCallback_unfold (i j depth : Z) (s : State) :
  spreadCallback i j depth s
  = spreadGlitch (i + 1) (j + 1) (depth - 1)
      (spreadGlitch (i + 1) (j + 0) (depth - 1)
        (spreadGlitch (i + 1) (j + -1) (depth - 1)
          (spreadGlitch (i + 0) (j + 1) (depth - 1)
            (spreadGlitch (i + 0) (j + -1) (depth - 1)
              (spreadGlitch (i + -1) (j + 1) (depth - 1)
                (spreadGlitch (i + -1) (j + 0) (depth - 1)
                  (spreadGlitch (i + -1) (j + -1) (depth - 1) s))))))).
Proof. reflexivity. Qed.

(** A property that every neighbour call preserves holds after the callback. *)
Lemma spreadCallback_preserves (P : State -> Prop) (i j depth : Z) (s : State) :
  P s ->
  (forall di dj s', -1 <= di <= 1 -> -1 <= dj <= 1 -> di <> 0 \/ dj <> 0 ->
     P s' -> P (spreadGlitch (i + di) (j + dj) (depth - 1) s')) ->
  P (spreadCallback i j depth s).
Proof.
  intros Hs Hstep. rewrite spreadCallback_unfold.
  repeat (apply Hstep; [lia | lia | lia |]). exact Hs.
Qed.

Lemma fireNext_unfold (s : State) :
  fireNext s
  = match timers s with
    | [] => s
    | tm :: rest =>
        spreadCallback (tm_i tm) (tm_j tm) (tm_depth tm)
          (set_timers rest (waitDue s))
    end.
Proof.
  unfold fireNext, fireTimer, waitDue. destruct (timers s) as [|tm rest] eqn:Ht.
  - by rewrite Ht.
  - destruct (Qle_bool (tm_due tm) (clock s)) eqn:Hdue.
    + by rewrite Ht, Hdue.
    + state_simpl. rewrite Ht.
      assert (Qle_bool (tm_due tm) (tm_due tm) = true) as ->; [|done].
      apply Qle_bool_iff, Qle_refl.
Qed.

Lemma waitDue_frame (s : State) :
  grid (waitDue s) = grid s /\ glitchCells (waitDue s) = glitchCells s
  /\ timers (waitDue s) = timers s /\ glitchActive (waitDue s) = glitchActive s.
Proof.
  unfold waitDue. destruct (timers s) as [|tm rest] eqn:Ht; [by rewrite Ht|].
  destruct (Qle_bool _ _); state_simpl; by rewrite ?Ht.
Qed.

Lemma runWave_idle (n : nat) (s : State) :
  timers s = [] -> runWave n s = s.
Proof.
  intros Ht. induction n as [|n IH]; [done|]. simpl.
  by rewrite fireNext_unfold, Ht.
Qed.

(** *** Termination of a wave *)

Lemma ringWeight_pos (n : nat) : (1 <= ringWeight n)%nat.
Proof. destruct n; simpl; lia. Qed.

Lemma timersWeight_app (l1 l2 : list Timer) :
  foldr (fun tm n => (timerWeight tm + n)%nat) O (l1 ++ l2)
  = (foldr (fun tm n => (timerWeight tm + n)%nat) O l1
     + foldr (fun tm n => (timerWeight tm + n)%nat) O l2)%nat.
Proof. induction l1 as [|tm l1 IH]; simpl; [done|]. rewrite IH. lia. Qed.

Lemma waveWeight_spreadGlitch (i j depth : Z) (s : State) :
  (waveWeight (spreadGlitch i j depth s)
   <= waveWeight s + ringWeight (Z.to_nat (depth - 1)))%nat.
Proof.
  destruct (spreadGlitch_cases i j depth s) as [-> | (_ & _ & _ & ->)]; [lia|].
  unfold waveWeight. simpl. rewrite timersWeight_app. simpl.
  unfold timerWeight. simpl. lia.
Qed.

Lemma waveWeight_spreadCallback (i j depth : Z) (s : State) :
  (waveWeight (spreadCallback i j depth s) + 1
   <= waveWeight s + ringWeight (Z.to_nat (depth - 1)))%nat.
Proof.
  destruct (Z.le_gt_cases depth 1) as [Hd | Hd].
  - rewrite spreadCallback_unfold, !spreadGlitch_depth_0 by lia.
    pose proof (ringWeight_pos (Z.to_nat (depth - 1))). lia.
  - replace (Z.to_nat (depth - 1)) with (S (Z.to_nat (depth - 1 - 1))) by lia.
    cbn [ringWeight]. rewrite spreadCallback_unfold.
    repeat match goal with
    | |- context [waveWeight (spreadGlitch ?a ?b ?c ?x)] =>
        let H := fresh in
        pose proof (waveWeight_spreadGlitch a b c x) as H;
        generalize dependent (waveWeight (spreadGlitch a b c x))
    end.
    intros. lia.
Qed.

Lemma waveWeight_fireNext (s : State) :
  timers s <> [] -> (waveWeight (fireNext s) < waveWeight s)%nat.
Proof.
  intros Hne. rewrite fireNext_unfold.
  destruct (timers s) as [|tm rest] eqn:Ht; [done|].
  pose proof (waveWeight_spreadCallback (tm_i tm) (tm_j tm) (tm_depth tm)
                (set_timers rest (waitDue s))) as H.
  unfold waveWeight in *. rewrite Ht. simpl in *. unfold timerWeight at 2. lia.
Qed.

Lemma waveWeight_0 (s : State) : waveWeight s = O -> timers s = [].
Proof.
  unfold waveWeight. destruct (timers s) as [|tm rest]; [done|]. simpl.
  pose proof (ringWeight_pos (Z.to_nat (tm_depth tm - 1))).
  unfold timerWeight. lia.
Qed.

(** Every wave ends: [waveWeight s] runs of the oldest callback, or more,
    leave no callback pending. *)
Lemma runWave_terminates (n : nat) (s : State) :
  (waveWeight s <= n)%nat -> timers (runWave n s) = [].
Proof.
  revert s. induction n as [|n IH]; intros s Hw.
  - simpl. apply waveWeight_0. lia.
  - simpl. destruct (timers s) as [|tm rest] eqn:Ht.
    + rewrite fireNext_unfold, Ht, runWave_idle; done.
    + apply IH. pose proof (waveWeight_fireNext s). rewrite Ht in *.
      assert (waveWeight (fireNext s) < waveWeight s)%nat by auto. lia.
Qed.

(** *** Gating: only filled cells of the grid are added *)

Lemma gated_spreadGlitch (g : list (list bool)) (old : list (Z * Z))
    (i j depth : Z) (s : State) :
  gated g old s -> gated g old (spreadGlitch i j depth s).
Proof.
  intros [Hg Hnew].
  destruct (spreadGlitch_cases i j depth s) as [-> | (_ & Hin & Hf & ->)];
    [done|].
  split; [done|]. intros c. state_simpl. rewrite elem_of_app, list_elem_of_singleton.
  intros [Hc | ->]; [by apply Hnew|]. right. by rewrite <- Hg.
Qed.

Lemma gated_fireNext (g : list (list bool)) (old : list (Z * Z)) (s : State) :
  gated g old s -> gated g old (fireNext s).
Proof.
  intros Hs. rewrite fireNext_unfold. destruct (timers s) as [|tm rest]; [done|].
  apply spreadCallback_preserves.
  - destruct Hs as [Hg Hnew]. destruct (waitDue_frame s) as (Hg' & Hc' & _).
    split; state_simpl; [congruence|]. intros c. state_simpl.
    rewrite Hc'. apply Hnew.
  - intros. by apply gated_spreadGlitch.
Qed.

Lemma gated_runWave (g : list (list bool)) (old : list (Z * Z)) (n : nat)
    (s : State) :
  gated g old s -> gated g old (runWave n s).
Proof.
  revert s. induction n as [|n IH]; intros s Hs; [done|].
  simpl. by apply IH, gated_fireNext.
Qed.

(** *** Radius: the wave stays within its rings *)

Lemma withinRings_spreadGlitch (o : Z * Z) (D : Z) (old : list (Z * Z))
    (i j depth : Z) (s : State) :
  ringDist (i, j) o <= D - depth ->
  withinRings o D old s -> withinRings o D old (spreadGlitch i j depth s).
Proof.
  intros Hd [Htm Hnew].
  destruct (spreadGlitch_cases i j depth s) as [-> | (Hpos & _ & _ & ->)];
    [done|].
  split; state_simpl.
  - intros tm. rewrite elem_of_app, list_elem_of_singleton.
    intros [Hin | ->]; [by apply Htm | done].
  - intros c. state_simpl. rewrite elem_of_app, list_elem_of_singleton.
    intros [Hc | ->]; [by apply Hnew|]. right. lia.
Qed.

Lemma withinRings_fireNext (o : Z * Z) (D : Z) (old : list (Z * Z))
    (s : State) :
  withinRings o D old s -> withinRings o D old (fireNext s).
Proof.
  intros [Htm Hnew]. rewrite fireNext_unfold.
  destruct (timers s) as [|tm rest] eqn:Ht; [by split; rewrite ?Ht|].
  pose proof (Htm tm ltac:(left)) as Hd.
  apply spreadCallback_preserves.
  - destruct (waitDue_frame s) as (_ & Hc' & _). split; state_simpl.
    + intros tm' Hin. apply Htm. by right.
    + intros c. state_simpl. rewrite Hc'. apply Hnew.
  - intros di dj s' Hdi Hdj _ Hs'. apply withinRings_spreadGlitch; [|done].
    unfold ringDist in *. simpl in *. lia.
Qed.

Lemma withinRings_runWave (o : Z * Z) (D : Z) (old : list (Z * Z)) (n : nat)
    (s : State) :
  withinRings o D old s -> withinRings o D old (runWave n s).
Proof.
  revert s. induction n as [|n IH]; intros s Hs; [done|].
  simpl. by apply IH, withinRings_fireNext.
Qed.

(** *** The grid of the example *)

Example only22_grid :
  grid only22 = toggle 2 2 (grid setup) /\ playing only22 = true
  /\ at2 (grid only22) 2 2 = Some true.
Proof. by vm_compute. Qed.

Lemma only22_filled (c : Z * Z) : filled (grid only22) c <-> c = (2, 2).
Proof.
  split; [|by intros ->; vm_compute].
  destruct c as [i j]. unfold filled. cbn [fst snd]. intros Hf.
  assert (Forall (fun i' => Forall (fun j' =>
            at2 (grid only22) i' j' = Some true -> (i', j') = (2, 2))
            (seqZ 0 rows)) (seqZ 0 cols)) as Hall.
  { vm_compute. repeat (constructor; [repeat (constructor; [done|]); constructor|]).
    constructor. }
  assert (0 <= i < cols /\ 0 <= j < rows) as [Hi Hj].
  { pose proof Hf as Hf'. apply bind_Some in Hf' as (row & Hrow & Hf').
    apply at_index_lt in Hf'. pose proof (at_index_lt _ _ _ Hrow) as Hi.
    apply at_index_Some in Hrow as [_ Hrow].
    assert (length (grid only22) = 15%nat) as Hlen15 by (by vm_compute).
    assert (length row = 10%nat) as Hlen.
    { assert (Forall (fun r : list bool => length r = 10%nat) (grid only22))
        as Hrows by (vm_compute; repeat constructor).
      rewrite Forall_forall in Hrows. apply Hrows.
      by eapply list_elem_of_lookup_2. }
    rewrite Hlen in Hf'. rewrite Hlen15 in Hi. unfold cols, rows. lia. }
  rewrite Forall_seqZ in Hall. specialize (Hall i ltac:(lia)).
  rewrite Forall_seqZ in Hall. by apply Hall; [lia|].
Qed.

(** C2: however far a wave started by [spreadGlitch i j depth] has run,
    every glitch cell that was not there before the call is a cell of the
    grid whose entry is filled.  On the grid whose only filled cell is
    (2, 2), the wave of depth 3 from (2, 2) holds (2, 2) and nothing else
    from the call on. *)
Theorem spread_only_filled :
  (forall (i j depth : Z) (s : State) (n : nat) (c : Z * Z),
     c ∈ glitchCells (runWave n (spreadGlitch i j depth s)) ->
     c ∈ glitchCells s \/ (inGrid c /\ filled (grid s) c))
  /\ (forall c, filled (grid only22) c <-> c = (2, 2))
  /\ glitchCells only22 = []
  /\ forall n : nat,
       glitchCells (runWave n (spreadGlitch 2 2 3 only22)) = [(2, 2)].
Proof.
  split; [|split; [exact only22_filled | split; [done|]]].
  - intros i j depth s n c.
    assert (gated (grid s) (glitchCells s) s) as Hs by (split; [done | by left]).
    apply (gated_spreadGlitch _ _ i j depth), (gated_runWave _ _ n) in Hs.
    apply Hs.
  - intros [|n]; [by vm_compute|]. simpl.
    rewrite runWave_idle; by vm_compute.
Qed.

Lemma spread_only_filled_witness :
  (2, 2) ∈ glitchCells only22
  \/ (inGrid (2, 2) /\ filled (grid only22) (2, 2)).
Proof.
  apply (proj1 spread_only_filled 2 2 3 only22 2%nat (2, 2)).
  vm_compute. constructor.
Defined.

(** *** Depth 1 *)

Lemma spreadCallback_depth_1 (i j depth : Z) (s : State) :
  depth <= 1 -> spreadCallback i j depth s = s.
Proof.
  intros Hd. rewrite spreadCallback_unfold. by rewrite !spreadGlitch_depth_0 by lia.
Qed.

Lemma runWave_depth_1 (i j : Z) (s : State) (n : nat) :
  timers s = [] ->
  glitchCells (runWave n (spreadGlitch i j 1 s))
  = glitchCells (spreadGlitch i j 1 s).
Proof.
  intros Ht.
  destruct (spreadGlitch_cases i j 1 s) as [-> | (_ & _ & _ & ->)].
  - by rewrite runWave_idle.
  - destruct n as [|n]; [done|]. simpl. rewrite fireNext_unfold. state_simpl.
    rewrite Ht. simpl. rewrite spreadCallback_depth_1 by lia.
    rewrite runWave_idle by done. state_simpl.
    match goal with |- glitchCells (waitDue ?x) = _ =>
      by destruct (waitDue_frame x) as (_ & -> & _) end.
Qed.

(** C5: a call of depth 1 adds the origin or nothing, and the expansion it
    schedules adds nothing, in whatever state it runs: its neighbour calls
    have depth 0.  Every wave ends, after at most [waveWeight] callbacks, and
    a wave of depth [maxDepth] started with no other callback pending adds
    no cell farther than [maxDepth - 1] rings from its origin. *)
Theorem spread_depth_bounded :
  (forall (i j : Z) (s : State),
     (glitchCells (spreadGlitch i j 1 s) = glitchCells s
      \/ glitchCells (spreadGlitch i j 1 s) = glitchCells s ++ [(i, j)])
     /\ (forall di dj s', spreadGlitch (i + di) (j + dj) (1 - 1) s' = s')
     /\ (forall s', spreadCallback i j 1 s' = s')
     /\ (forall n : nat, timers s = [] ->
           glitchCells (runWave n (spreadGlitch i j 1 s))
           = glitchCells (spreadGlitch i j 1 s)))
  /\ (forall (s : State) (n : nat),
        (waveWeight s <= n)%nat -> timers (runWave n s) = [])
  /\ (forall (i j maxDepth : Z) (s : State) (n : nat) (c : Z * Z),
        timers s = [] ->
        c ∈ glitchCells (runWave n (spreadGlitch i j maxDepth s)) ->
        c ∈ glitchCells s \/ ringDist c (i, j) <= maxDepth - 1).
Proof.
  split; [|split].
  - intros i j s. split; [|split; [|split]].
    + destruct (spreadGlitch_cases i j 1 s) as [-> | (_ & _ & _ & ->)];
        [by left | by right].
    + intros. by apply spreadGlitch_depth_0.
    + intros. by apply spreadCallback_depth_1.
    + intros. by apply runWave_depth_1.
  - intros s n. apply runWave_terminates.
  - intros i j maxDepth s n c Ht.
    assert (withinRings (i, j) maxDepth (glitchCells s) s) as Hs.
    { split; [rewrite Ht; by intros tm ?%elem_of_nil | by left]. }
    apply (withinRings_spreadGlitch _ _ _ i j maxDepth) in Hs;
      [|unfold ringDist; simpl; lia].
    apply (withinRings_runWave _ _ _ n) in Hs. apply Hs.
Qed.

Lemma spread_depth_bounded_witness :
  glitchCells (runWave 3 (spreadGlitch 2 2 1 only22))
  = glitchCells (spreadGlitch 2 2 1 only22)
  /\ timers (runWave 73 (spreadGlitch 2 2 3 only22)) = []
  /\ ((2, 2) ∈ glitchCells only22 \/ ringDist (2, 2) (2, 2) <= 3 - 1).
Proof.
  split; [|split].
  - apply (proj1 spread_depth_bounded 2 2 only22). reflexivity.
  - apply (proj1 (proj2 spread_depth_bounded)). vm_compute. lia.
  - apply (proj2 (proj2 spread_depth_bounded) 2 2 3 only22 1%nat (2, 2)).
    + reflexivity.
    + vm_compute. constructor.
Defined.

(** ** Clicks *)

(** C9: a click that the scans place in a cell, while the music plays,
    empties the glitch cells, activates the session and the overlay and
    stamps both start times with the time of the click, whatever the
    session was before; the wave from the clicked cell starts from that
    state, so the cells afterwards are the clicked one or none. *)
Theorem click_restarts_session (mouseX mouseY : Q) (s : State) :
  let ci := scan cols mouseX (colWidths s) in
  let rj := scan rows mouseY (rowHeights s) in
  let fresh :=
    set_glitchOverlayStart (clock s)
      (set_glitchOverlayActive true
        (set_glitchStart (clock s)
          (set_glitchActive true (set_glitchCells [] s)))) in
  let s' := mousePressed mouseX mouseY s in
  0 <= ci -> 0 <= rj -> playing s = true ->
  s' = spreadGlitch ci rj 3 fresh
  /\ glitchCells fresh = []
  /\ glitchActive s' = true /\ glitchOverlayActive s' = true
  /\ glitchStart s' = clock s /\ glitchOverlayStart s' = clock s
  /\ (glitchCells s' = [] \/ glitchCells s' = [(ci, rj)]).
Proof.
  intros ci rj fresh s' Hci Hrj Hplay.
  assert (s' = spreadGlitch ci rj 3 fresh) as Hs'.
  { unfold s', mousePressed. fold ci rj. rewrite Hplay.
    destruct (Z.geb_spec ci 0); [|lia]. by destruct (Z.geb_spec rj 0); [|lia]. }
  split; [exact Hs'|]. split; [done|]. rewrite Hs'.
  destruct (spreadGlitch_frame ci rj 3 fresh)
    as (_ & _ & -> & -> & -> & -> & _).
  repeat (split; [done|]).
  destruct (spreadGlitch_cases ci rj 3 fresh) as [-> | (_ & _ & _ & ->)];
    [by left | by right].
Qed.

Lemma click_restarts_session_witness :
  glitchActive midSession = true /\ glitchCells midSession = [(2, 2)]
  /\ glitchStart midSession = 0%Q
  /\ glitchStart (mousePressed 300 300 midSession) = 500%Q
  /\ glitchOverlayStart (mousePressed 300 300 midSession) = 500%Q
  /\ glitchCells (mousePressed 300 300 midSession) = [].
Proof.
  pose proof (click_restarts_session 300 300 midSession) as H. cbv zeta in H.
  specialize (H ltac:(by vm_compute) ltac:(by vm_compute) ltac:(by vm_compute)).
  destruct H as (_ & _ & _ & _ & Hstart & Hover & _).
  split; [by vm_compute|]. split; [by vm_compute|]. split; [by vm_compute|].
  split; [exact Hstart|]. split; [exact Hover|]. by vm_compute.
Defined.

(** ** A callback that runs after its session expired *)

Lemma expireGlitch_expired (s : State) :
  glitchActive s = true -> (glitchStart s + glitchDuration < clock s)%Q ->
  expireGlitch s = set_glitchCells [] (set_glitchActive false s).
Proof.
  intros Ha Hlate. unfold expireGlitch. rewrite Ha.
  apply Qlt_bool_iff in Hlate. by rewrite Hlate.
Qed.

(** What a frame leaves alone, and what of the session it passes on. *)
Lemma draw_frame (noise : Q -> Q -> Q) (inp : FrameInput) (s s1 : State) :
  draw noise inp s = Some s1 ->
  grid s1 = grid s /\ timers s1 = timers s /\ clock s1 = clock s
  /\ playing s1 = playing s
  /\ glitchActive s1 = glitchActive (expireGlitch s)
  /\ glitchCells s1 = glitchCells (expireGlitch s)
  /\ lastLevel s1 = in_level inp.
Proof.
  unfold draw, beatPass. intros (bf & _ & [= <-])%bind_Some.
  unfold renderPass, recomputePartition, advanceTime, expireGlitch.
  destruct (glitchActive s && _); state_simpl;
    destruct (playing s) eqn:Hp; state_simpl; by rewrite ?Hp.
Qed.

Lemma spreadGlitch_mono (c : Z * Z) (i j depth : Z) (s : State) :
  c ∈ glitchCells s -> c ∈ glitchCells (spreadGlitch i j depth s).
Proof.
  intros Hc.
  destruct (spreadGlitch_cases i j depth s) as [-> | (_ & _ & _ & ->)];
    [done|]. state_simpl. apply elem_of_app. by left.
Qed.

Lemma spreadGlitch_adds (i j depth : Z) (s : State) :
  0 < depth -> inGrid (i, j) -> filled (grid s) (i, j) ->
  (i, j) ∈ glitchCells (spreadGlitch i j depth s).
Proof.
  intros Hd [Hi Hj] Hf. unfold spreadGlitch, filled in *. simpl in *.
  destruct (Z.leb_spec depth 0); [lia|].
  destruct (Z.ltb_spec i 0); [lia|].
  destruct (Z.geb_spec i cols); [lia|].
  destruct (Z.ltb_spec j 0); [lia|].
  destruct (Z.geb_spec j rows); [lia|].
  rewrite Hf. simpl. apply elem_of_app. right. by left.
Qed.

Lemma spreadGlitch_grid (i j depth : Z) (s : State) :
  grid (spreadGlitch i j depth s) = grid s.
Proof. apply spreadGlitch_frame. Qed.

Lemma spreadGlitch_glitchActive (i j depth : Z) (s : State) :
  glitchActive (spreadGlitch i j depth s) = glitchActive s.
Proof. apply spreadGlitch_frame. Qed.

(** The callback of a cell with depth 2 or more adds every filled
    neighbour that lies in the grid. *)
Lemma spreadCallback_adds (i j depth di dj : Z) (s : State) :
  2 <= depth -> -1 <= di <= 1 -> -1 <= dj <= 1 -> di <> 0 \/ dj <> 0 ->
  inGrid (i + di, j + dj) -> filled (grid s) (i + di, j + dj) ->
  (i + di, j + dj) ∈ glitchCells (spreadCallback i j depth s).
Proof.
  intros Hd Hdi Hdj Hne Hin Hf. rewrite spreadCallback_unfold.
  assert (di = -1 \/ di = 0 \/ di = 1) as Hdi' by lia.
  assert (dj = -1 \/ dj = 0 \/ dj = 1) as Hdj' by lia.
  destruct Hdi' as [-> | [-> | ->]]; destruct Hdj' as [-> | [-> | ->]];
    try lia;
    repeat first
      [ apply spreadGlitch_adds;
        [lia | exact Hin | by rewrite ?spreadGlitch_grid]
      | apply spreadGlitch_mono ].
Qed.

(** C6: when the frame that ends an expired session has run, leaving the
    session inactive and its cells empty, the oldest pending callback still
    runs once it is due, and with a depth of 2 or more it adds every filled
    neighbour in the grid to the cells of the session that is over. *)
Theorem late_spread_not_cancelled (noise : Q -> Q -> Q) (inp : FrameInput)
    (s s1 : State) (tm : Timer) (rest : list Timer) (di dj : Z) :
  glitchActive s = true -> (glitchStart s + glitchDuration < clock s)%Q ->
  timers s = tm :: rest -> (tm_due tm <= clock s)%Q -> 2 <= tm_depth tm ->
  -1 <= di <= 1 -> -1 <= dj <= 1 -> di <> 0 \/ dj <> 0 ->
  inGrid (tm_i tm + di, tm_j tm + dj) ->
  filled (grid s) (tm_i tm + di, tm_j tm + dj) ->
  draw noise inp s = Some s1 ->
  glitchActive s1 = false /\ glitchCells s1 = []
  /\ exists s2, fireTimer s1 = Some s2 /\ glitchActive s2 = false
       /\ (tm_i tm + di, tm_j tm + dj) ∈ glitchCells s2.
Proof.
  intros Ha Hlate Ht Hdue Hd Hdi Hdj Hne Hin Hf Hdraw.
  destruct (draw_frame _ _ _ _ Hdraw) as (Hg & Ht1 & Hc1 & _ & Ha1 & Hcells1 & _).
  rewrite expireGlitch_expired in Ha1, Hcells1 by done. state_simpl.
  split; [done|]. split; [done|].
  unfold fireTimer. rewrite Ht1, Ht, Hc1.
  apply Qle_bool_iff in Hdue. rewrite Hdue. eexists. split; [done|]. split.
  - apply (spreadCallback_preserves (fun x => glitchActive x = false)).
    + by state_simpl.
    + intros. by rewrite spreadGlitch_glitchActive.
  - apply spreadCallback_adds; try done. state_simpl. by rewrite Hg.
Qed.

Lemma late_spread_not_cancelled_witness :
  glitchActive lateSession = true /\ glitchCells lateSession = [(2, 2)]
  /\ exists s1 s2,
       draw (fun _ _ => 1 # 2)%Q (mkFrameInput 0.01 0.5 0 (fun _ => 0%Q))
         lateSession = Some s1
       /\ glitchActive s1 = false /\ glitchCells s1 = []
       /\ fireTimer s1 = Some s2 /\ glitchActive s2 = false
       /\ (3, 3) ∈ glitchCells s2.
Proof.
  split; [by vm_compute|]. split; [by vm_compute|].
  pose proof (fun s1 =>
    late_spread_not_cancelled (fun _ _ => 1 # 2)%Q
      (mkFrameInput 0.01 0.5 0 (fun _ => 0%Q)) lateSession s1
      (mkTimer 40 2 2 3) [] 1 1
      ltac:(by vm_compute) ltac:(by vm_compute) ltac:(by vm_compute)
      ltac:(by vm_compute) ltac:(simpl; lia) ltac:(lia) ltac:(lia)
      ltac:(lia) ltac:(unfold inGrid, cols, rows; simpl; lia)
      ltac:(by vm_compute)) as H.
  destruct (draw (fun _ _ => 1 # 2)%Q (mkFrameInput 0.01 0.5 0 (fun _ => 0%Q))
              lateSession) as [s1|] eqn:Hdraw;
    [|vm_compute in Hdraw; discriminate Hdraw].
  exists s1. destruct (H s1 eq_refl) as (Ha & Hc & s2 & Hfire & Ha2 & Hin).
  exists s2. split; [reflexivity|]. repeat (split; [assumption|]). exact Hin.
Defined.

(** ** Two-dimensional arrays *)

Lemma store2_Some {A} (a a' : list (list A)) (i j : Z) (v : A) :
  store2 a i j v = Some a' <->
  exists row old, at_index a i = Some row /\ at_index row j = Some old
    /\ a' = <[Z.to_nat i := <[Z.to_nat j := v]> row]> a.
Proof.
  unfold store2. split.
  - intros (row & Hrow & (old & Hold & [= <-])%bind_Some)%bind_Some. eauto.
  - intros (row & old & Hrow & Hold & ->). rewrite Hrow. simpl.
    by rewrite Hold.
Qed.

Lemma store2_is_Some {A} (a : list (list A)) (i j : Z) (v x : A) :
  at2 a i j = Some x -> is_Some (store2 a i j v).
Proof.
  intros (row & Hrow & Hx)%bind_Some. unfold store2. rewrite Hrow. simpl.
  rewrite Hx. by eexists.
Qed.

(** Reading after a write. *)
Lemma at2_store2 {A} (a a' : list (list A)) (i j i' j' : Z) (v : A) :
  store2 a i j v = Some a' ->
  at2 a' i' j' = if decide ((i, j) = (i', j')) then Some v else at2 a i' j'.
Proof.
  intros (row & old & Hrow & Hold & ->)%store2_Some.
  apply at_index_Some in Hrow as [Hi Hrow].
  apply at_index_Some in Hold as [Hj Hold].
  pose proof (lookup_lt_Some _ _ _ Hrow) as Hilt.
  pose proof (lookup_lt_Some _ _ _ Hold) as Hjlt.
  unfold at2, at_index.
  destruct (Z.ltb_spec i' 0) as [Hi' | Hi'].
  { rewrite decide_False; [done | intros [= -> ->]; lia]. }
  destruct (decide (i = i')) as [<- | Hne].
  - rewrite list_lookup_insert_eq by done. simpl.
    destruct (Z.ltb_spec i 0); [lia|]. rewrite Hrow. simpl.
    destruct (Z.ltb_spec j' 0) as [Hj' | Hj'].
    { rewrite decide_False; [done | intros [= ->]; lia]. }
    destruct (decide (j = j')) as [<- | Hnej].
    + rewrite decide_True by done. by rewrite list_lookup_insert_eq.
    + rewrite decide_False by congruence.
      rewrite list_lookup_insert_ne; [done | lia].
  - rewrite decide_False by congruence.
    rewrite list_lookup_insert_ne; [done | lia].
Qed.

Lemma shaped_at2 {A} (a : list (list A)) (i j : Z) :
  shaped a -> inGrid (i, j) -> is_Some (at2 a i j).
Proof.
  intros [Hlen Hrows] [Hi Hj]. simpl in *. unfold at2, at_index.
  destruct (Z.ltb_spec i 0); [lia|].
  destruct (lookup_lt_is_Some_2 a (Z.to_nat i)) as [row Hrow]; [lia|].
  rewrite Hrow. simpl. destruct (Z.ltb_spec j 0); [lia|].
  apply lookup_lt_is_Some_2. rewrite Forall_forall in Hrows.
  rewrite (Hrows row); [lia | by eapply list_elem_of_lookup_2].
Qed.

Lemma shaped_store2 {A} (a a' : list (list A)) (i j : Z) (v : A) :
  shaped a -> store2 a i j v = Some a' -> shaped a'.
Proof.
  intros [Hlen Hrows] (row & old & Hrow & Hold & ->)%store2_Some.
  apply at_index_Some in Hrow as [Hi Hrow]. split.
  - by rewrite length_insert.
  - rewrite Forall_forall in Hrows. apply Forall_insert.
    + by apply Forall_forall.
    + rewrite length_insert. apply Hrows. by eapply list_elem_of_lookup_2.
Qed.

(** ** The flash countdown *)

Lemma at2_tickCell (bf : list (list Z)) (i j i' j' : Z) :
  at2 (tickCell i j bf) i' j'
  = if decide ((i, j) = (i', j')) then tick <$> at2 bf i j else at2 bf i' j'.
Proof.
  unfold tickCell, tick. destruct (at2 bf i j) as [v|] eqn:Hv.
  - destruct (v >? 0) eqn:Hpos.
    + destruct (store2_is_Some bf i j (v - 1) v Hv) as [bf' Hst].
      rewrite Hst. simpl. rewrite (at2_store2 _ _ _ _ _ _ _ Hst).
      destruct (decide _); [simpl; by rewrite Hpos | done].
    + destruct (decide _) as [[= <- <-] | _]; [|done].
      rewrite Hv. simpl. by rewrite Hpos.
  - destruct (decide _) as [[= <- <-] | _]; [|done]. by rewrite Hv.
Qed.

(** A pass over cells without repetition counts every visited cell down
    once and leaves the others alone. *)
Lemma at2_tick_cells (cells : list (Z * Z)) (bf : list (list Z)) (c : Z * Z) :
  NoDup cells ->
  at2 (foldl (fun bf c => tickCell c.1 c.2 bf) bf cells) c.1 c.2
  = if decide (c ∈ cells) then tick <$> at2 bf c.1 c.2 else at2 bf c.1 c.2.
Proof.
  intros Hnd. revert bf. induction Hnd as [|a cells Ha Hnd IH]; intros bf.
  - cbn [foldl]. by destruct (decide (c ∈ [])) as [H%not_elem_of_nil|].
  - cbn [foldl]. rewrite IH, at2_tickCell. destruct a as [ai aj], c as [ci cj].
    cbn [fst snd] in *.
    destruct (decide ((ci, cj) ∈ (ai, aj) :: cells)) as [Hc | Hc];
      rewrite elem_of_cons in Hc;
      destruct (decide ((ci, cj) ∈ cells)) as [Hin | Hnin];
      destruct (decide ((ai, aj) = (ci, cj))) as [Heq | Hne];
      try done; try (exfalso; intuition congruence).
    by injection Heq as -> ->.
Qed.

(** Two nested loops visit the cells row by row. *)
Lemma foldl_cells {A} (f : A -> Z * Z -> A) (a : A) (outer inner : list Z) :
  foldl f a (j ← outer; i ← inner; [(i, j)])
  = foldl (fun a j => foldl (fun a i => f a (i, j)) a inner) a outer.
Proof.
  revert a. induction outer as [|j outer IH]; intros a; [done|].
  cbn [mbind list_bind foldl]. rewrite foldl_app, IH. f_equal.
  clear IH. revert a. induction inner as [|i inner IH]; intros a; [done|].
  cbn [mbind list_bind foldl app]. apply IH.
Qed.

Lemma tickFlash_allCells (bf : list (list Z)) :
  tickFlash bf = foldl (fun bf c => tickCell c.1 c.2 bf) bf allCells.
Proof. unfold tickFlash, allCells. by rewrite foldl_cells. Qed.

Lemma NoDup_allCells : NoDup allCells.
Proof. apply (bool_decide_unpack _). by vm_compute. Qed.

Lemma elem_of_allCells (c : Z * Z) : c ∈ allCells <-> inGrid c.
Proof.
  destruct c as [i j]. unfold allCells, inGrid. cbn [fst snd].
  rewrite list_elem_of_bind. setoid_rewrite list_elem_of_bind.
  setoid_rewrite list_elem_of_singleton. setoid_rewrite elem_of_seqZ. split.
  - intros (j' & (i' & [= -> ->] & Hi) & Hj). unfold cols, rows in *. lia.
  - intros [Hi Hj]. exists j. split; [|unfold rows in *; lia].
    exists i. split; [done | unfold cols in *; lia].
Qed.

(** One render pass counts each positive counter of the grid down by one. *)
Lemma at2_tickFlash (bf : list (list Z)) (i j : Z) :
  inGrid (i, j) -> at2 (tickFlash bf) i j = tick <$> at2 bf i j.
Proof.
  intros Hin. rewrite tickFlash_allCells.
  pose proof (at2_tick_cells allCells bf (i, j) NoDup_allCells) as H.
  cbn [fst snd] in H. rewrite H.
  rewrite decide_True; [done | by apply elem_of_allCells].
Qed.

Lemma at2_tickFlash_outside (bf : list (list Z)) (i j : Z) :
  ~ inGrid (i, j) -> at2 (tickFlash bf) i j = at2 bf i j.
Proof.
  intros Hout. rewrite tickFlash_allCells.
  pose proof (at2_tick_cells allCells bf (i, j) NoDup_allCells) as H.
  cbn [fst snd] in H. rewrite H.
  rewrite decide_False; [done | by rewrite elem_of_allCells].
Qed.

Lemma tick_nonneg (v : Z) : 0 <= v -> 0 <= tick v.
Proof. unfold tick. destruct (Z.gtb_spec v 0); lia. Qed.

Lemma flashNonneg_tickFlash (bf : list (list Z)) :
  flashNonneg bf -> flashNonneg (tickFlash bf).
Proof.
  intros Hbf i j v.
  destruct (decide (0 <= i < cols /\ 0 <= j < rows)) as [Hin | Hout].
  - rewrite at2_tickFlash by done.
    intros (w & Hw & ->)%fmap_Some. apply tick_nonneg. by eapply Hbf.
  - rewrite at2_tickFlash_outside by done. apply Hbf.
Qed.

Lemma flashNonneg_store2 (bf bf' : list (list Z)) (i j v : Z) :
  0 <= v -> flashNonneg bf -> store2 bf i j v = Some bf' -> flashNonneg bf'.
Proof.
  intros Hv Hbf Hst i' j' w. rewrite (at2_store2 _ _ _ _ _ _ _ Hst).
  destruct (decide _); [by intros [= <-] | apply Hbf].
Qed.

(** ** The beat detector *)

Example floorZ_samples :
  floorZ 0 = 0 /\ floorZ 0.5 = 0 /\ floorZ 2.5 = 2 /\ floorZ 3 = 3
  /\ floorZ 11.999999999999998 = 11 /\ floorZ (-0.5) = -1
  /\ floorZ (-1) = -1 /\ floorZ (-1.5) = -2.
Proof. repeat split; vm_compute; reflexivity. Qed.

(** The map of the detector at some levels.  At 0.32 the quotient by 0.4
    rounds to 0.7999999999999999 and the map to 11.999999999999998. *)
Example flashCount_samples :
  flashCount 0 = 0 /\ flashCount 0.1 = 3 /\ flashCount 0.2 = 7
  /\ flashCount 0.32 = 11 /\ flashCount 0.35 = 13 /\ flashCount 0.4 = 15
  /\ flashCount 0.5 = 18 /\ flashCount 0.8 = 30 /\ flashCount 1 = 37.
Proof. repeat split; vm_compute; reflexivity. Qed.






(** *** The beat loop *)

Lemma beatLoop_nonpos (rnd : Z -> Q) (n : Z) (bf : list (list Z)) :
  n <= 0 -> beatLoop rnd n bf = Some bf.
Proof. intros Hn. unfold beatLoop. by rewrite seqZ_nil. Qed.

Lemma beatLoop_succ (rnd : Z -> Q) (n : Z) (bf : list (list Z)) :
  0 <= n ->
  beatLoop rnd (Z.succ n) bf
  = bf' ← beatLoop rnd n bf;
    store2 bf' (beatPick rnd n).1 (beatPick rnd n).2 4.
Proof.
  intros Hn. unfold beatLoop, Z.succ. rewrite seqZ_app by lia.
  rewrite foldl_app. rewrite (seqZ_cons _ 1) by lia.
  rewrite (seqZ_nil _ (Z.pred 1)) by lia. by rewrite Z.add_0_l.
Qed.

(** What every write of the loop preserves holds when the loop returns. *)
Lemma beatLoop_preserves (P : list (list Z) -> Prop) (rnd : Z -> Q) (n : Z)
    (bf bf' : list (list Z)) :
  P bf ->
  (forall b b' k, 0 <= k < n -> P b ->
     store2 b (beatPick rnd k).1 (beatPick rnd k).2 4 = Some b' -> P b') ->
  beatLoop rnd n bf = Some bf' -> P bf'.
Proof.
  intros Hbf Hstep. destruct (Z.le_gt_cases n 0) as [Hn | Hn].
  { rewrite beatLoop_nonpos by done. by intros [= <-]. }
  revert bf' Hstep. pattern n. apply natlike_ind; [| |lia]; clear n Hn.
  - intros bf' _. rewrite beatLoop_nonpos by done. by intros [= <-].
  - intros n Hn IH bf' Hstep. rewrite beatLoop_succ by done.
    intros (b & Hb & Hst)%bind_Some. apply (Hstep b bf' n); [lia | | done].
    apply IH; [|done]. intros b1 b2 k Hk. apply Hstep. lia.
Qed.

(** With every pick inside an array of the grid's shape the loop returns. *)
Lemma beatLoop_total (rnd : Z -> Q) (n : Z) (bf : list (list Z)) :
  shaped bf -> (forall k, 0 <= k < n -> inGrid (beatPick rnd k)) ->
  exists bf', beatLoop rnd n bf = Some bf' /\ shaped bf'.
Proof.
  intros Hbf. destruct (Z.le_gt_cases n 0) as [Hn | Hn].
  { exists bf. by rewrite beatLoop_nonpos. }
  pattern n. apply natlike_ind; [| |lia]; clear n Hn.
  - exists bf. by rewrite beatLoop_nonpos.
  - intros n Hn IH Hpick. destruct IH as (b & Hb & Hshape).
    { intros k Hk. apply Hpick. lia. }
    rewrite beatLoop_succ, Hb by done. cbn [mbind option_bind].
    destruct (shaped_at2 b (beatPick rnd n).1 (beatPick rnd n).2 Hshape)
      as [v Hv].
    { specialize (Hpick n ltac:(lia)). by destruct (beatPick rnd n). }
    destruct (store2_is_Some b _ _ 4 v Hv) as [b' Hb']. exists b'.
    split; [done|]. by eapply shaped_store2.
Qed.


Lemma floor_random_range (r : Q) (max : Z) :
  0 < max -> (0 <= r < 1)%Q -> 0 <= Qfloor (p5random r max) < max.
Proof.
  intros Hmax [Hr0 Hr1]. unfold p5random.
  assert (0 < inject_Z max)%Q as HmaxQ.
  { change 0%Q with (inject_Z 0). by rewrite <- Zlt_Qlt. }
  split.
  - change 0 with (Qfloor 0). apply Qfloor_resp_le.
    apply Qmult_le_0_compat; lra.
  - rewrite Zlt_Qlt. eapply Qle_lt_trans; [apply Qfloor_le|].
    apply Qlt_le_trans with (1 * inject_Z max)%Q;
      [by apply Qmult_lt_compat_r | lra].
Qed.

Lemma beatPick_inGrid (rnd : Z -> Q) (k : Z) :
  (forall n, 0 <= rnd n < 1)%Q -> inGrid (beatPick rnd k).
Proof.
  intros Hrnd. unfold inGrid, beatPick. cbn [fst snd].
  split; by apply floor_random_range.
Qed.

Lemma shaped_setup : shaped (beatFlash setup) /\ shaped (grid setup).
Proof.
  split; (split; [done|]); vm_compute; repeat constructor.
Qed.

(** C10: with unit samples in [0, 1) every cell that the beat loop picks
    has its column in [0, cols) and its row in [0, rows), so on the
    [cols] by [rows] counters no write falls outside the array: the pass
    returns, and the counters keep their shape. *)
Theorem beat_flash_in_range (rnd : Z -> Q) (level : float) (s : State) :
  (forall n, 0 <= rnd n < 1)%Q -> shaped (beatFlash s) ->
  (forall k, 0 <= (beatPick rnd k).1 < cols /\ 0 <= (beatPick rnd k).2 < rows)
  /\ exists s', beatPass level rnd s = Some s' /\ shaped (beatFlash s').
Proof.
  intros Hrnd Hshape. split; [intros k; by apply beatPick_inGrid|].
  unfold beatPass. destruct (_ <? _)%float.
  - destruct (beatLoop_total rnd (flashCount level) (beatFlash s) Hshape)
      as (bf' & -> & Hbf'); [intros; by apply beatPick_inGrid|].
    by eexists.
  - by eexists.
Qed.

Lemma beat_flash_in_range_witness :
  (forall k, 0 <= (beatPick (fun _ => 1 # 2)%Q k).1 < cols
             /\ 0 <= (beatPick (fun _ => 1 # 2)%Q k).2 < rows)
  /\ exists s', beatPass 0.35 (fun _ => 1 # 2)%Q setup = Some s'
       /\ shaped (beatFlash s').
Proof.
  apply (beat_flash_in_range (fun _ => 1 # 2)%Q 0.35 setup).
  - intros _. split; [discriminate | reflexivity].
  - apply shaped_setup.
Defined.



(** ** The flash counters *)

Lemma spreadCallback_beatFlash (i j depth : Z) (s : State) :
  beatFlash (spreadCallback i j depth s) = beatFlash s.
Proof.
  apply (spreadCallback_preserves (fun x => beatFlash x = beatFlash s));
    [done|]. intros di dj s' _ _ _ <-. apply spreadGlitch_frame.
Qed.

Lemma mousePressed_beatFlash (mouseX mouseY : Q) (s : State) :
  beatFlash (mousePressed mouseX mouseY s) = beatFlash s.
Proof.
  unfold mousePressed. destruct (_ && _); [|done].
  destruct (playing s); [|done].
  by destruct (spreadGlitch_frame
                 (scan cols mouseX (colWidths s))
                 (scan rows mouseY (rowHeights s)) 3
                 (set_glitchOverlayStart (clock s)
                    (set_glitchOverlayActive true
                       (set_glitchStart (clock s)
                          (set_glitchActive true (set_glitchCells [] s))))))
    as (_ & _ & _ & _ & _ & _ & _ & ->).
Qed.

Lemma flashNonneg_beatPass (level : float) (rnd : Z -> Q) (s s' : State) :
  flashNonneg (beatFlash s) -> beatPass level rnd s = Some s' ->
  flashNonneg (beatFlash s').
Proof.
  intros Hs. unfold beatPass. intros (bf & Hbf & [= <-])%bind_Some.
  state_simpl. destruct (_ <? _)%float; [|by injection Hbf as <-].
  eapply beatLoop_preserves; [exact Hs | | exact Hbf].
  intros b b' k _ Hb Hst. by eapply flashNonneg_store2; [| |exact Hst].
Qed.

Lemma flashNonneg_draw (noise : Q -> Q -> Q) (inp : FrameInput) (s s' : State) :
  flashNonneg (beatFlash s) -> draw noise inp s = Some s' ->
  flashNonneg (beatFlash s').
Proof.
  intros Hs. unfold draw. apply flashNonneg_beatPass.
  unfold renderPass. state_simpl. apply flashNonneg_tickFlash.
  unfold recomputePartition, advanceTime, expireGlitch.
  destruct (glitchActive s && _); state_simpl;
    destruct (playing s); by state_simpl.
Qed.

Lemma flashNonneg_setup : flashNonneg (beatFlash setup).
Proof.
  intros i j v (row & Hrow & Hv)%bind_Some.
  apply at_index_Some in Hrow as [_ Hrow]. apply at_index_Some in Hv as [_ Hv].
  apply list_elem_of_lookup_2 in Hrow, Hv.
  change (beatFlash setup)
    with (replicate (Z.to_nat cols) (replicate (Z.to_nat rows) 0)) in Hrow.
  apply elem_of_replicate in Hrow as [-> _].
  apply elem_of_replicate in Hv as [-> _]. done.
Qed.

(** C7: a counter of the grid set to 4 reads 3, 2, 1 and 0 after one, two,
    three and four render passes and still 0 after a fifth; a pass takes 1
    from a counter that is strictly positive and leaves every other one as
    it is, so a counter that is not negative stays so through every event,
    from [setup] on. *)
Theorem flash_countdown :
  (forall (bf bf1 : list (list Z)) (i j : Z),
     inGrid (i, j) -> store2 bf i j 4 = Some bf1 ->
     at2 bf1 i j = Some 4
     /\ at2 (Nat.iter 1 tickFlash bf1) i j = Some 3
     /\ at2 (Nat.iter 2 tickFlash bf1) i j = Some 2
     /\ at2 (Nat.iter 3 tickFlash bf1) i j = Some 1
     /\ at2 (Nat.iter 4 tickFlash bf1) i j = Some 0
     /\ at2 (Nat.iter 5 tickFlash bf1) i j = Some 0)
  /\ (forall (bf : list (list Z)) (i j v : Z),
        inGrid (i, j) -> at2 bf i j = Some v ->
        at2 (tickFlash bf) i j = Some (if v >? 0 then v - 1 else v))
  /\ flashNonneg (beatFlash setup)
  /\ (forall (noise : Q -> Q -> Q) (e : Event) (s s' : State),
        flashNonneg (beatFlash s) -> step noise e s = Some s' ->
        flashNonneg (beatFlash s')).
Proof.
  split; [|split; [|split; [exact flashNonneg_setup|]]].
  - intros bf bf1 i j Hin Hst. unfold Nat.iter. cbn [nat_rect].
    rewrite !at2_tickFlash by done.
    rewrite (at2_store2 _ _ _ _ _ _ _ Hst), decide_True by done.
    repeat split; reflexivity.
  - intros bf i j v Hin Hv. by rewrite at2_tickFlash, Hv.
  - intros noise [dt | inp | mouseX mouseY | | |] s s' Hs; cbn [step].
    + destruct (Qle_bool 0 dt); [|done]. by intros [= <-].
    + by apply flashNonneg_draw.
    + intros [= <-]. by rewrite mousePressed_beatFlash.
    + unfold fireTimer. destruct (timers s) as [|tm rest]; [done|].
      destruct (Qle_bool _ _); [|done]. intros [= <-].
      by rewrite spreadCallback_beatFlash.
    + by intros [= <-].
    + by intros [= <-].
Qed.

Lemma flash_countdown_witness :
  at2 (Nat.iter 4 tickFlash (<[3%nat := <[7%nat := 4]>
         (replicate 10 0)]> (beatFlash setup))) 3 7 = Some 0
  /\ at2 (Nat.iter 5 tickFlash (<[3%nat := <[7%nat := 4]>
         (replicate 10 0)]> (beatFlash setup))) 3 7 = Some 0.
Proof.
  destruct (proj1 flash_countdown (beatFlash setup)
              (<[3%nat := <[7%nat := 4]> (replicate 10 0)]> (beatFlash setup))
              3 7) as (_ & _ & _ & _ & H4 & H5).
  - unfold inGrid, cols, rows. simpl. lia.
  - reflexivity.
  - split; [exact H4 | exact H5].
Defined.

(** ** A session, end to end *)

(** A click while paused fills cell (2, 2); with the music on, a second
    click there starts a session whose only cell is (2, 2), and the callback
    that runs 40 ms later finds no filled neighbour and registers nothing. *)
Example session_on_one_cell :
  exists s',
    run (fun _ _ => 1 # 2)%Q
      [EvMouse 200 200; EvPlayPause; EvMouse 200 200; EvTick 40; EvTimer]
      setup = Some s'
    /\ glitchActive s' = true /\ glitchOverlayActive s' = true
    /\ glitchCells s' = [(2, 2)] /\ timers s' = [].
Proof. eexists. split; [by vm_compute|]. by vm_compute. Qed.

(** The callback is not due before its 40 ms have passed. *)
Example timer_not_due :
  run (fun _ _ => 1 # 2)%Q
    [EvMouse 200 200; EvPlayPause; EvMouse 200 200; EvTick 39; EvTimer]
    setup = None.
Proof. by vm_compute. Qed.

(** * Further properties of the handlers *)

(** ** The scan of a click (script.js 212-220) *)

Lemma reduce_sum_app (l1 l2 : list Q) :
  (reduce_sum (l1 ++ l2) == reduce_sum l1 + reduce_sum l2)%Q.
Proof.
  unfold reduce_sum at 1. rewrite foldl_app, foldl_Qplus_acc. reflexivity.
Qed.

Lemma offset_0 (sizes : list Q) : (offset sizes 0 == 0)%Q.
Proof. reflexivity. Qed.

Lemma offset_succ (sizes : list Q) (i : Z) (w : Q) :
  at_index sizes i = Some w ->
  (offset sizes (i + 1) == offset sizes i + w)%Q.
Proof.
  intros [Hi Hw]%at_index_Some. unfold offset.
  replace (Z.to_nat (i + 1)) with (S (Z.to_nat i)) by lia.
  rewrite (take_S_r _ _ _ Hw), reduce_sum_app.
  unfold reduce_sum at 2. simpl. lra.
Qed.

Lemma offset_mono (sizes : list Q) (i k : Z) :
  Forall (fun w => 0 <= w)%Q sizes -> 0 <= i <= k ->
  (offset sizes i <= offset sizes k)%Q.
Proof.
  intros Hpos [Hi Hik]. pattern k. apply Zlt_lower_bound_ind with (z := i);
    [|exact Hik]. clear k Hik. intros k IH Hk.
  destruct (decide (k = i)) as [-> | Hne]; [apply Qle_refl|].
  specialize (IH (k - 1) ltac:(lia)).
  destruct (at_index sizes (k - 1)) as [w|] eqn:Hw.
  - pose proof (offset_succ _ _ _ Hw) as Hs.
    replace (k - 1 + 1) with k in Hs by lia.
    apply at_index_Some in Hw as [_ Hw]. apply list_elem_of_lookup_2 in Hw.
    rewrite Forall_forall in Hpos. specialize (Hpos w Hw). simpl in Hpos. lra.
  - unfold at_index in Hw. destruct (Z.ltb_spec (k - 1) 0); [lia|].
    apply lookup_ge_None in Hw. unfold offset in *.
    rewrite (take_ge _ (Z.to_nat k)) by lia.
    rewrite (take_ge _ (Z.to_nat (k - 1))) in IH by lia. exact IH.
Qed.

Lemma Qle_bool_false (x y : Q) : Qle_bool x y = false <-> (y < x)%Q.
Proof.
  rewrite <- not_true_iff_false, Qle_bool_iff.
  split; [apply Qnot_le_lt | apply Qlt_not_le].
Qed.

(** A scan that finds a cell stopped at an index of its range whose interval
    holds the position. *)
Lemma scanFrom_found (fuel : nat) (i : Z) (acc pos : Q) (sizes : list Q) :
  0 <= i -> (acc == offset sizes i)%Q ->
  0 <= scanFrom fuel i acc pos sizes ->
  i <= scanFrom fuel i acc pos sizes < i + Z.of_nat fuel
  /\ (offset sizes (scanFrom fuel i acc pos sizes) <= pos
      < offset sizes (scanFrom fuel i acc pos sizes + 1))%Q.
Proof.
  revert i acc. induction fuel as [|fuel IH]; intros i acc Hi Hacc; simpl.
  - lia.
  - destruct (at_index sizes i) as [w|] eqn:Hw; [|lia].
    pose proof (offset_succ _ _ _ Hw) as Hsucc.
    destruct (Qle_bool acc pos && Qlt_bool pos (acc + w)) eqn:Hhit.
    + intros _. apply andb_true_iff in Hhit as [Hle Hlt].
      apply Qle_bool_iff in Hle. apply Qlt_bool_iff in Hlt.
      split; [lia|]. rewrite Hsucc, <- Hacc. by split.
    + intros Hr. destruct (IH (i + 1) (acc + w)%Q) as [Hrange Hint];
        [lia | by rewrite Hsucc, Hacc | exact Hr |].
      split; [lia | exact Hint].
Qed.

(** A position between the running offset and the end of the scanned range
    is found. *)
Lemma scanFrom_finds (fuel : nat) (i : Z) (acc pos : Q) (sizes : list Q) :
  0 <= i -> i + Z.of_nat fuel <= Z.of_nat (length sizes) ->
  (acc == offset sizes i)%Q ->
  (acc <= pos < offset sizes (i + Z.of_nat fuel))%Q ->
  0 <= scanFrom fuel i acc pos sizes.
Proof.
  revert i acc. induction fuel as [|fuel IH]; intros i acc Hi Hlen Hacc [Hlo Hhi].
  - exfalso. rewrite Z.add_0_r, <- Hacc in Hhi. lra.
  - simpl. destruct (lookup_lt_is_Some_2 sizes (Z.to_nat i)) as [w Hw]; [lia|].
    assert (at_index sizes i = Some w) as Hw' by (by apply at_index_Some).
    rewrite Hw'. pose proof (offset_succ _ _ _ Hw') as Hsucc.
    destruct (Qle_bool acc pos && Qlt_bool pos (acc + w)) eqn:Hhit; [lia|].
    apply IH; [lia | lia | by rewrite Hsucc, Hacc |].
    apply andb_false_iff in Hhit as [Hle | Hlt].
    + apply Qle_bool_false in Hle. lra.
    + apply Qlt_bool_false in Hlt.
      replace (i + 1 + Z.of_nat fuel) with (i + Z.of_nat (S fuel)) by lia.
      by split.
Qed.

Lemma scanFrom_range (fuel : nat) (i : Z) (acc pos : Q) (sizes : list Q) :
  0 <= i ->
  scanFrom fuel i acc pos sizes = -1
  \/ i <= scanFrom fuel i acc pos sizes < i + Z.of_nat fuel.
Proof.
  revert i acc. induction fuel as [|fuel IH]; intros i acc Hi; simpl.
  - by left.
  - destruct (at_index sizes i) as [w|]; [|by left].
    destruct (_ && _); [right; lia|].
    destruct (IH (i + 1) (acc + w)%Q) as [-> | H]; [lia | by left | right; lia].
Qed.

Lemma scan_range (n : Z) (pos : Q) (sizes : list Q) :
  0 <= n -> -1 <= scan n pos sizes < n.
Proof.
  intros Hn. unfold scan.
  pose proof (scanFrom_range (Z.to_nat n) 0 0%Q pos sizes ltac:(lia)). lia.
Qed.

Lemma scan_interval (n : Z) (pos : Q) (sizes : list Q) :
  0 <= scan n pos sizes ->
  (offset sizes (scan n pos sizes) <= pos
   < offset sizes (scan n pos sizes + 1))%Q.
Proof.
  unfold scan. intros H.
  by destruct (scanFrom_found (Z.to_nat n) 0 0%Q pos sizes ltac:(lia)
                 ltac:(reflexivity) H).
Qed.

Lemma scan_found_iff (n : Z) (pos : Q) (sizes : list Q) :
  0 <= n <= Z.of_nat (length sizes) ->
  Forall (fun w => 0 <= w)%Q sizes ->
  0 <= scan n pos sizes <-> (0 <= pos < offset sizes n)%Q.
Proof.
  intros [Hn Hlen] Hpos. split.
  - intros H. pose proof (scan_range n pos sizes Hn) as Hr.
    destruct (scan_interval n pos sizes H) as [Hlo Hhi].
    pose proof (offset_mono sizes 0 (scan n pos sizes) Hpos ltac:(lia)) as H0.
    pose proof (offset_mono sizes (scan n pos sizes + 1) n Hpos ltac:(lia))
      as H1.
    rewrite offset_0 in H0. lra.
  - intros Hin. unfold scan.
    apply scanFrom_finds; [lia | lia | reflexivity |].
    by rewrite Z.add_0_l, Z2Nat.id.
Qed.

(** X1: over sizes that are not negative, the scan of the first [n] of them
    answers an index below [n] or -1; it finds a cell exactly when the
    position lies from 0 up to, and not at, the sum of the [n] sizes, and
    the cell it finds is the one whose interval, from the sum of the sizes
    before it, holds the position. *)
Theorem scan_locates (n : Z) (pos : Q) (sizes : list Q) :
  0 <= n <= Z.of_nat (length sizes) ->
  Forall (fun w => 0 <= w)%Q sizes ->
  -1 <= scan n pos sizes < n
  /\ (0 <= scan n pos sizes <-> (0 <= pos < offset sizes n)%Q)
  /\ (0 <= scan n pos sizes ->
      (offset sizes (scan n pos sizes) <= pos
       < offset sizes (scan n pos sizes + 1))%Q).
Proof.
  intros Hn Hpos. split; [apply scan_range; lia|].
  split; [by apply scan_found_iff | apply scan_interval].
Qed.

Lemma scan_locates_witness :
  scan cols 200 (colWidths setup) = 2
  /\ (offset (colWidths setup) 2 <= 200 < offset (colWidths setup) (2 + 1))%Q.
Proof.
  split; [reflexivity|].
  apply (scan_locates cols 200 (colWidths setup)).
  - by vm_compute.
  - vm_compute. repeat (constructor; [discriminate|]). constructor.
  - by vm_compute.
Defined.

(** ** Clicks after a frame *)

Lemma draw_partition (noise : Q -> Q -> Q) (inp : FrameInput) (s s' : State) :
  draw noise inp s = Some s' ->
  exists time,
    colWidths s' = normalize (rawWeights noise cols time (in_strength inp)) width
    /\ rowHeights s'
       = normalize (rawWeights noise rows (time + 100) (in_strength inp)) height.
Proof.
  unfold draw, beatPass. intros (bf & _ & [= <-])%bind_Some.
  unfold renderPass. state_simpl. eexists. split; reflexivity.
Qed.

Lemma offset_all (sizes : list Q) :
  offset sizes (Z.of_nat (length sizes)) = reduce_sum sizes.
Proof. unfold offset. by rewrite Nat2Z.id, take_ge. Qed.

Lemma Forall_pos_nonneg (l : list Q) :
  Forall (fun w => 0 < w)%Q l -> Forall (fun w => 0 <= w)%Q l.
Proof.
  intros H. eapply Forall_impl; [exact H|]. intros w Hw. simpl in *. lra.
Qed.

(** X2: after a frame drawn with noise in [0, 1] and a strength that is not
    negative, a click finds a column exactly when its x lies between 0 and
    the sum of the widths as the scan adds them up, and a row exactly when
    its y lies between 0 and the sum of the heights.  A click on the canvas
    at least one pixel away from its right and bottom edges finds both, and
    a click left of or above the canvas, or a pixel or more right of or
    below it, changes nothing. *)
Theorem click_after_frame (noise : Q -> Q -> Q) (inp : FrameInput)
    (s s' : State) (mouseX mouseY : Q) :
  (forall x y, 0 <= noise x y <= 1)%Q -> (0 <= in_strength inp)%Q ->
  draw noise inp s = Some s' ->
  (0 <= scan cols mouseX (colWidths s')
   <-> (0 <= mouseX < offset (colWidths s') cols)%Q)
  /\ (0 <= scan rows mouseY (rowHeights s')
      <-> (0 <= mouseY < offset (rowHeights s') rows)%Q)
  /\ ((0 <= mouseX <= width - 1)%Q ->
      0 <= scan cols mouseX (colWidths s') < cols)
  /\ ((0 <= mouseY <= height - 1)%Q ->
      0 <= scan rows mouseY (rowHeights s') < rows)
  /\ ((mouseX < 0 \/ width + 1 <= mouseX
       \/ mouseY < 0 \/ height + 1 <= mouseY)%Q ->
      mousePressed mouseX mouseY s' = s').
Proof.
  intros Hnoise Hstr (time & Hc & Hr)%draw_partition.
  assert (Z.of_nat (length (colWidths s')) = cols) as Hclen.
  { by rewrite Hc, normalize_length, rawWeights_length. }
  assert (Z.of_nat (length (rowHeights s')) = rows) as Hrlen.
  { by rewrite Hr, normalize_length, rawWeights_length. }
  assert (Forall (fun w => 0 < w)%Q (colWidths s')) as Hcpos.
  { rewrite Hc. apply normalize_pos; [by apply rawWeights_nonempty | | done].
    by apply rawWeights_pos. }
  assert (Forall (fun w => 0 < w)%Q (rowHeights s')) as Hrpos.
  { rewrite Hr. apply normalize_pos; [by apply rawWeights_nonempty | | done].
    by apply rawWeights_pos. }
  assert (offset (colWidths s') cols == width)%Q as Hcsum.
  { rewrite <- Hclen, offset_all, Hc.
    apply normalize_sum; [by apply rawWeights_nonempty | by apply rawWeights_pos]. }
  assert (offset (rowHeights s') rows == height)%Q as Hrsum.
  { rewrite <- Hrlen, offset_all, Hr.
    apply normalize_sum; [by apply rawWeights_nonempty | by apply rawWeights_pos]. }
  pose proof (scan_found_iff cols mouseX (colWidths s') ltac:(lia)
                (Forall_pos_nonneg _ Hcpos)) as Hciff.
  pose proof (scan_found_iff rows mouseY (rowHeights s') ltac:(lia)
                (Forall_pos_nonneg _ Hrpos)) as Hriff.
  pose proof (scan_range cols mouseX (colWidths s')) as Hcrange.
  pose proof (scan_range rows mouseY (rowHeights s')) as Hrrange.
  split; [exact Hciff|]. split; [exact Hriff|].
  rewrite Hcsum in Hciff. rewrite Hrsum in Hriff. unfold width, height in *.
  split; [|split].
  - intros Hx. assert (0 <= scan cols mouseX (colWidths s')); [|lia].
    apply Hciff. lra.
  - intros Hy. assert (0 <= scan rows mouseY (rowHeights s')); [|lia].
    apply Hriff. lra.
  - intros Hout. unfold mousePressed.
    destruct (Z.geb_spec (scan cols mouseX (colWidths s')) 0) as [Hci | Hci];
      destruct (Z.geb_spec (scan rows mouseY (rowHeights s')) 0) as [Hrj | Hrj];
      try reflexivity.
    exfalso. assert (0 <= mouseX < 1200 /\ 0 <= mouseY < 800)%Q as [Hx Hy].
    { split; [apply Hciff | apply Hriff]; lia. }
    lra.
Qed.

Lemma click_after_frame_witness :
  exists s',
    draw (fun _ _ => 1 # 2)%Q (mkFrameInput 0.01 0.5 0 (fun _ => 0%Q)) setup
    = Some s'
    /\ 0 <= scan cols 200 (colWidths s') < cols
    /\ 0 <= scan rows 799 (rowHeights s') < rows
    /\ mousePressed (-5) 200 s' = s'
    /\ mousePressed 200 801 s' = s'.
Proof.
  pose proof (fun s' mouseX mouseY =>
    click_after_frame (fun _ _ => 1 # 2)%Q
      (mkFrameInput 0.01 0.5 0 (fun _ => 0%Q)) setup s' mouseX mouseY
      ltac:(intros x y; split; discriminate) ltac:(discriminate)) as H.
  destruct (draw (fun _ _ => 1 # 2)%Q (mkFrameInput 0.01 0.5 0 (fun _ => 0%Q))
              setup) as [s1|] eqn:Hdraw;
    [|vm_compute in Hdraw; discriminate Hdraw].
  clear Hdraw. exists s1. split; [reflexivity|].
  destruct (H s1 200%Q 799%Q eq_refl) as (_ & _ & Hc & Hr & _).
  destruct (H s1 (-5)%Q 200%Q eq_refl) as (_ & _ & _ & _ & Hleft).
  destruct (H s1 200%Q 801%Q eq_refl) as (_ & _ & _ & _ & Hbelow).
  split; [apply Hc; split; discriminate|].
  split; [apply Hr; split; discriminate|].
  split; [apply Hleft; left; reflexivity|].
  apply Hbelow. right. right. right. discriminate.
Defined.

(** ** Clicks while paused (script.js 237-240) *)

Lemma at2_Some_store2 {A} (a : list (list A)) (i j : Z) (x v : A) :
  at2 a i j = Some x ->
  exists row,
    0 <= i /\ 0 <= j /\ a !! Z.to_nat i = Some row
    /\ row !! Z.to_nat j = Some x
    /\ store2 a i j v = Some (<[Z.to_nat i := <[Z.to_nat j := v]> row]> a).
Proof.
  intros (row & Hrow & Hx)%bind_Some. exists row.
  pose proof Hrow as [Hi Hrow']%at_index_Some.
  pose proof Hx as [Hj Hx']%at_index_Some.
  repeat (split; [done|]). unfold store2. rewrite Hrow. simpl. by rewrite Hx.
Qed.

Lemma toggle_toggle (ci rj : Z) (g : list (list bool)) :
  toggle ci rj (toggle ci rj g) = g.
Proof.
  unfold toggle at 2. destruct (at2 g ci rj) as [b|] eqn:Hb;
    [|unfold toggle; by rewrite Hb].
  destruct (at2_Some_store2 g ci rj b (negb b) Hb)
    as (row & Hi & Hj & Hrow & Hcell & ->). simpl.
  pose proof (lookup_lt_Some _ _ _ Hrow) as Hilt.
  pose proof (lookup_lt_Some _ _ _ Hcell) as Hjlt.
  unfold toggle.
  assert (at2 (<[Z.to_nat ci := <[Z.to_nat rj := negb b]> row]> g) ci rj
          = Some (negb b)) as Hb'.
  { unfold at2, at_index. destruct (Z.ltb_spec ci 0); [lia|].
    rewrite list_lookup_insert_eq by done. simpl.
    destruct (Z.ltb_spec rj 0); [lia|]. by rewrite list_lookup_insert_eq. }
  rewrite Hb'.
  destruct (at2_Some_store2 _ ci rj (negb b) (negb (negb b)) Hb')
    as (row' & _ & _ & Hrow' & _ & ->). simpl.
  rewrite list_lookup_insert_eq in Hrow' by done. injection Hrow' as <-.
  rewrite !list_insert_insert_eq, negb_involutive.
  by rewrite (list_insert_id row), list_insert_id.
Qed.

Lemma at2_toggle (ci rj i j : Z) (g : list (list bool)) :
  at2 (toggle ci rj g) i j
  = if decide ((ci, rj) = (i, j)) then negb <$> at2 g ci rj else at2 g i j.
Proof.
  unfold toggle. destruct (at2 g ci rj) as [b|] eqn:Hb.
  - destruct (store2_is_Some g ci rj (negb b) b Hb) as [g' Hg'].
    rewrite Hg'. simpl. rewrite (at2_store2 _ _ _ _ _ _ _ Hg').
    by destruct (decide _).
  - destruct (decide _) as [[= <- <-] | _]; [|done]. by rewrite Hb.
Qed.

(** X3: while the music is paused, two clicks at the same point leave the
    sketch as it was, whether the point is in a cell or not. *)
Theorem paused_click_twice (mouseX mouseY : Q) (s : State) :
  playing s = false ->
  mousePressed mouseX mouseY (mousePressed mouseX mouseY s) = s.
Proof.
  intros Hplay. unfold mousePressed at 2. rewrite Hplay.
  destruct (_ && _) eqn:Hhit.
  - unfold mousePressed. state_simpl. rewrite Hhit, Hplay, toggle_toggle.
    by destruct s.
  - unfold mousePressed. by rewrite Hhit.
Qed.

Lemma paused_click_twice_witness :
  grid (mousePressed 200 200 setup) <> grid setup
  /\ mousePressed 200 200 (mousePressed 200 200 setup) = setup.
Proof.
  split; [by vm_compute|].
  apply (paused_click_twice 200 200 setup). reflexivity.
Defined.

(** X4: while the music is paused, a click that the scans place in cell
    [(ci, rj)] negates the grid entry of that cell and of no other, and
    changes nothing but the grid: no session starts and no callback is
    registered. *)
Theorem paused_click_toggles_one_cell (mouseX mouseY : Q) (s : State) :
  playing s = false ->
  0 <= scan cols mouseX (colWidths s) -> 0 <= scan rows mouseY (rowHeights s) ->
  (forall i j,
     at2 (grid (mousePressed mouseX mouseY s)) i j
     = if decide ((scan cols mouseX (colWidths s),
                   scan rows mouseY (rowHeights s)) = (i, j))
       then negb <$> at2 (grid s) i j
       else at2 (grid s) i j)
  /\ mousePressed mouseX mouseY s
     = set_grid (grid (mousePressed mouseX mouseY s)) s.
Proof.
  intros Hplay Hci Hrj. unfold mousePressed. rewrite Hplay.
  destruct (Z.geb_spec (scan cols mouseX (colWidths s)) 0); [|lia].
  destruct (Z.geb_spec (scan rows mouseY (rowHeights s)) 0); [|lia].
  cbn [andb]. state_simpl. split; [|done]. intros i j. rewrite at2_toggle.
  by destruct (decide _) as [[= <- <-] | _].
Qed.

Lemma paused_click_toggles_one_cell_witness :
  (forall i j,
     at2 (grid (mousePressed 200 200 setup)) i j
     = if decide ((scan cols 200 (colWidths setup),
                   scan rows 200 (rowHeights setup)) = (i, j))
       then negb <$> at2 (grid setup) i j
       else at2 (grid setup) i j)
  /\ mousePressed 200 200 setup
     = set_grid (grid (mousePressed 200 200 setup)) setup.
Proof.
  apply (paused_click_toggles_one_cell 200 200 setup);
    [reflexivity | by vm_compute | by vm_compute].
Defined.

(** ** Clicks while playing (script.js 223-236) *)

(** X5: while the music plays, a click that the scans place in a cell leaves
    the grid, the partition and the flash counters as they are; the cell is
    one of the grid, the glitch cells become that cell when its entry is
    filled and none when it is not, and one callback of depth 3, due 40 ms
    later, is registered in the first case and none in the second. *)
Theorem playing_click_effect (mouseX mouseY : Q) (s : State) :
  playing s = true ->
  0 <= scan cols mouseX (colWidths s) -> 0 <= scan rows mouseY (rowHeights s) ->
  let ci := scan cols mouseX (colWidths s) in
  let rj := scan rows mouseY (rowHeights s) in
  let hit := default false (at2 (grid s) ci rj) in
  let s' := mousePressed mouseX mouseY s in
  inGrid (ci, rj)
  /\ grid s' = grid s /\ beatFlash s' = beatFlash s
  /\ colWidths s' = colWidths s /\ rowHeights s' = rowHeights s
  /\ glitchCells s' = (if hit then [(ci, rj)] else [])
  /\ timers s'
     = timers s ++ (if hit then [mkTimer (clock s + 40)%Q ci rj 3] else []).
Proof.
  intros Hplay Hci Hrj ci rj hit s'.
  assert (inGrid (ci, rj)) as Hin.
  { unfold inGrid, ci, rj, scan. cbn [fst snd].
    destruct (scanFrom_range (Z.to_nat cols) 0 0%Q mouseX (colWidths s)
                ltac:(lia)) as [H | H];
      destruct (scanFrom_range (Z.to_nat rows) 0 0%Q mouseY (rowHeights s)
                  ltac:(lia)) as [H' | H'];
      unfold scan in Hci, Hrj; unfold cols, rows in *; lia. }
  split; [exact Hin|]. unfold s', mousePressed. fold ci rj. rewrite Hplay.
  destruct (Z.geb_spec ci 0); [|lia]. destruct (Z.geb_spec rj 0); [|lia].
  cbn [andb]. destruct Hin as [Hi Hj]. cbn [fst snd] in Hi, Hj.
  unfold spreadGlitch. state_simpl.
  destruct (Z.ltb_spec ci 0); [lia|]. destruct (Z.geb_spec ci cols); [lia|].
  destruct (Z.ltb_spec rj 0); [lia|]. destruct (Z.geb_spec rj rows); [lia|].
  cbn [Z.leb Z.compare orb]. unfold hit.
  destruct (default false (at2 (grid s) ci rj)); state_simpl;
    rewrite ?app_nil_r; done.
Qed.

Lemma playing_click_effect_witness :
  glitchCells (mousePressed 200 200 only22) = [(2, 2)]
  /\ timers (mousePressed 200 200 only22) = [mkTimer 40 2 2 3]
  /\ glitchCells (mousePressed 300 300 only22) = []
  /\ timers (mousePressed 300 300 only22) = [].
Proof.
  destruct (playing_click_effect 200 200 only22)
    as (_ & _ & _ & _ & _ & Hc & Ht); [reflexivity | by vm_compute.. |].
  destruct (playing_click_effect 300 300 only22)
    as (_ & _ & _ & _ & _ & Hc' & Ht'); [reflexivity | by vm_compute.. |].
  split; [exact Hc|]. split; [exact Ht|]. split; [exact Hc' | exact Ht'].
Defined.

(** ** The clear button (script.js 87-93) *)

Lemma spreadGlitch_unfilled (i j depth : Z) (s : State) :
  (forall c, ~ filled (grid s) c) -> spreadGlitch i j depth s = s.
Proof.
  intros Hblank.
  destruct (spreadGlitch_cases i j depth s) as [-> | (_ & _ & Hf & _)];
    [done | by destruct (Hblank (i, j))].
Qed.

Lemma spreadCallback_unfilled (i j depth : Z) (s : State) :
  (forall c, ~ filled (grid s) c) -> spreadCallback i j depth s = s.
Proof.
  intros Hblank. apply (spreadCallback_preserves (fun x => x = s)); [done|].
  intros di dj s' _ _ _ ->. by apply spreadGlitch_unfilled.
Qed.

Lemma runWave_unfilled (n : nat) (s : State) :
  (forall c, ~ filled (grid s) c) ->
  glitchCells (runWave n s) = glitchCells s
  /\ timers (runWave n s) = drop n (timers s)
  /\ grid (runWave n s) = grid s.
Proof.
  revert s. induction n as [|n IH]; intros s Hblank; [done|].
  cbn [runWave]. rewrite fireNext_unfold.
  destruct (waitDue_frame s) as (Hg & Hc & Ht & _).
  destruct (timers s) as [|tm rest] eqn:Htm.
  - destruct (IH s Hblank) as (-> & -> & ->). rewrite Htm. by destruct n.
  - rewrite spreadCallback_unfilled by (state_simpl; by rewrite Hg).
    destruct (IH (set_timers rest (waitDue s))) as (-> & -> & ->);
      [state_simpl; by rewrite Hg|]. by state_simpl.
Qed.

Lemma replicate_unfilled (c : Z * Z) :
  ~ filled (replicate (Z.to_nat cols) (replicate (Z.to_nat rows) false)) c.
Proof.
  unfold filled. intros (row & Hrow & Hv)%bind_Some.
  apply at_index_Some in Hrow as [_ Hrow]. apply at_index_Some in Hv as [_ Hv].
  apply list_elem_of_lookup_2 in Hrow, Hv.
  apply elem_of_replicate in Hrow as [-> _].
  by apply elem_of_replicate in Hv as [? _].
Qed.

(** X6: after Clear no cell is filled, so the callbacks that are still
    pending add nothing: each run takes one callback off the queue and
    leaves the glitch cells alone.  A click after Clear registers no
    callback.  While the music plays, a click that the scan places in a
    cell leaves no glitch cell, and a click that it places in none leaves
    the state as Clear left it, the glitch cells of before included. *)
Theorem clear_stops_waves (s : State) :
  (forall c, ~ filled (grid (clearPressed s)) c)
  /\ (forall n : nat,
        glitchCells (runWave n (clearPressed s)) = glitchCells s
        /\ timers (runWave n (clearPressed s)) = drop n (timers s))
  /\ (forall mouseX mouseY,
        timers (mousePressed mouseX mouseY (clearPressed s)) = timers s
        /\ (playing s = true ->
            0 <= scan cols mouseX (colWidths s) ->
            0 <= scan rows mouseY (rowHeights s) ->
            glitchCells (mousePressed mouseX mouseY (clearPressed s)) = [])
        /\ (scan cols mouseX (colWidths s) < 0
            \/ scan rows mouseY (rowHeights s) < 0 ->
            mousePressed mouseX mouseY (clearPressed s) = clearPressed s)).
Proof.
  assert (forall c, ~ filled (grid (clearPressed s)) c) as Hblank.
  { intros c. apply replicate_unfilled. }
  split; [exact Hblank|]. split.
  - intros n. by destruct (runWave_unfilled n (clearPressed s) Hblank) as (? & ? & _).
  - intros mouseX mouseY. unfold mousePressed.
    change (colWidths (clearPressed s)) with (colWidths s).
    change (rowHeights (clearPressed s)) with (rowHeights s).
    change (playing (clearPressed s)) with (playing s).
    destruct (Z.geb_spec (scan cols mouseX (colWidths s)) 0) as [Hci | Hci];
      destruct (Z.geb_spec (scan rows mouseY (rowHeights s)) 0) as [Hrj | Hrj];
      cbn [andb]; try (split; [done|]; split; [lia | done]).
    destruct (playing s).
    + rewrite spreadGlitch_unfilled by exact Hblank.
      split; [done|]. split; [done | lia].
    + split; [done|]. split; [done | lia].
Qed.

Lemma clear_stops_waves_witness :
  timers (mousePressed 200 200 only22) = [mkTimer 40 2 2 3]
  /\ glitchCells (runWave 1 (clearPressed (mousePressed 200 200 only22)))
     = [(2, 2)]
  /\ timers (runWave 1 (clearPressed (mousePressed 200 200 only22))) = []
  /\ glitchCells
       (mousePressed 200 200 (clearPressed (mousePressed 200 200 only22)))
     = []
  /\ glitchCells
       (mousePressed (-5) 200 (clearPressed (mousePressed 200 200 only22)))
     = [(2, 2)].
Proof.
  destruct (clear_stops_waves (mousePressed 200 200 only22))
    as (_ & Hwave & Hclick).
  destruct (Hwave 1%nat) as [Hc Ht].
  destruct (Hclick 200%Q 200%Q) as (_ & Hnone & _).
  destruct (Hclick (-5)%Q 200%Q) as (_ & _ & Hmiss).
  split; [reflexivity|]. split; [exact Hc|]. split; [exact Ht|].
  split; [apply Hnone; [reflexivity | discriminate | discriminate]|].
  rewrite Hmiss; [reflexivity | left; reflexivity].
Defined.

(** ** The lifetime of a glitch session (script.js 105-109) *)

(** X7: a frame never starts a session and never touches the grid, the
    clock, the start time or the pending callbacks.  It ends an active
    session exactly when the clock has passed the start time by more than
    [glitchDuration], emptying the glitch cells; otherwise, and when no
    session is active, the glitch cells stay as they are. *)
Theorem frame_expires_session (noise : Q -> Q -> Q) (inp : FrameInput)
    (s s' : State) :
  draw noise inp s = Some s' ->
  (glitchActive s' = true <->
   glitchActive s = true /\ (clock s <= glitchStart s + glitchDuration)%Q)
  /\ (glitchActive s = true -> glitchActive s' = false -> glitchCells s' = [])
  /\ (glitchActive s' = glitchActive s -> glitchCells s' = glitchCells s)
  /\ grid s' = grid s /\ clock s' = clock s /\ timers s' = timers s
  /\ glitchStart s' = glitchStart s.
Proof.
  intros Hdraw.
  assert (glitchStart s' = glitchStart s) as Hstart.
  { revert Hdraw. unfold draw, beatPass. intros (bf & _ & [= <-])%bind_Some.
    unfold renderPass, recomputePartition, advanceTime, expireGlitch.
    destruct (glitchActive s && _); state_simpl;
      destruct (playing s); by state_simpl. }
  destruct (draw_frame _ _ _ _ Hdraw) as (Hg & Ht & Hc & _ & Ha & Hcells & _).
  clear Hdraw. rewrite Ha, Hcells. unfold expireGlitch.
  destruct (glitchActive s) eqn:Hact; cbn [andb].
  - destruct (Qlt_bool (glitchStart s + glitchDuration) (clock s)) eqn:Hlate;
      state_simpl; rewrite ?Hact.
    + apply Qlt_bool_iff in Hlate. repeat split; try done.
      intros [_ Hle]. exfalso. lra.
    + apply Qlt_bool_false in Hlate. repeat split; done.
  - rewrite Hact. repeat split; try done. by intros [? _].
Qed.

Lemma frame_expires_session_witness :
  exists s1 s2,
    draw (fun _ _ => 1 # 2)%Q (mkFrameInput 0.01 0.5 0 (fun _ => 0%Q))
      midSession = Some s1
    /\ glitchActive s1 = true /\ glitchCells s1 = [(2, 2)]
    /\ draw (fun _ _ => 1 # 2)%Q (mkFrameInput 0.01 0.5 0 (fun _ => 0%Q))
         lateSession = Some s2
    /\ glitchActive s2 = false /\ glitchCells s2 = [].
Proof.
  pose proof (fun s s' =>
    frame_expires_session (fun _ _ => 1 # 2)%Q
      (mkFrameInput 0.01 0.5 0 (fun _ => 0%Q)) s s') as H.
  destruct (draw (fun _ _ => 1 # 2)%Q (mkFrameInput 0.01 0.5 0 (fun _ => 0%Q))
              midSession) as [s1|] eqn:H1;
    [|vm_compute in H1; discriminate H1].
  destruct (draw (fun _ _ => 1 # 2)%Q (mkFrameInput 0.01 0.5 0 (fun _ => 0%Q))
              lateSession) as [s2|] eqn:H2;
    [|vm_compute in H2; discriminate H2].
  destruct (H midSession s1 H1) as (Hiff1 & _ & Hkeep1 & _).
  destruct (H lateSession s2 H2) as (Hiff2 & Hend2 & _).
  clear H H1 H2.
  assert (glitchActive s1 = true) as Ha1.
  { apply Hiff1. split; [vm_compute; reflexivity | Qclosed]. }
  assert (glitchActive s2 = false) as Ha2.
  { destruct (glitchActive s2); [|reflexivity].
    destruct Hiff2 as [Hiff2 _]. destruct (Hiff2 eq_refl) as [_ Hle].
    exfalso. apply Hle. vm_compute. reflexivity. }
  exists s1, s2. split; [reflexivity|]. split; [exact Ha1|].
  split; [rewrite Hkeep1; [reflexivity | exact Ha1]|].
  split; [reflexivity|]. split; [exact Ha2|]. apply Hend2; [reflexivity | exact Ha2].
Defined.

(** ** The overlay *)

Lemma draw_overlay (noise : Q -> Q -> Q) (inp : FrameInput) (s s' : State) :
  draw noise inp s = Some s' ->
  glitchOverlayActive s' = glitchOverlayActive s
  /\ glitchOverlayStart s' = glitchOverlayStart s.
Proof.
  unfold draw, beatPass. intros (bf & _ & [= <-])%bind_Some.
  unfold renderPass, recomputePartition, advanceTime, expireGlitch.
  destruct (glitchActive s && _); state_simpl;
    destruct (playing s); by state_simpl.
Qed.

Lemma spreadCallback_overlay (i j depth : Z) (s : State) :
  glitchOverlayActive (spreadCallback i j depth s) = glitchOverlayActive s
  /\ glitchOverlayStart (spreadCallback i j depth s) = glitchOverlayStart s.
Proof.
  apply (spreadCallback_preserves
           (fun x => glitchOverlayActive x = glitchOverlayActive s
                     /\ glitchOverlayStart x = glitchOverlayStart s));
    [done|].
  intros di dj s' _ _ _ [<- <-].
  by destruct (spreadGlitch_frame (i + di) (j + dj) (depth - 1) s')
    as (_ & _ & _ & _ & -> & -> & _).
Qed.

(** X8: no event clears the overlay flag once a click has set it, and the
    flag and the overlay's start time change only at a click that the scans
    place in a cell while the music plays, which sets the start to the time
    of the click.  After such a click the overlay test of a frame holds
    exactly while less than [glitchOverlayDuration] has passed, whether the
    clicked cell is filled or not. *)
Theorem overlay_window :
  (forall (noise : Q -> Q -> Q) (e : Event) (s s' : State),
     step noise e s = Some s' ->
     (glitchOverlayActive s = true -> glitchOverlayActive s' = true)
     /\ ((glitchOverlayActive s' <> glitchOverlayActive s
          \/ glitchOverlayStart s' <> glitchOverlayStart s) ->
         playing s = true
         /\ glitchOverlayActive s' = true
         /\ glitchOverlayStart s' = clock s
         /\ exists mouseX mouseY,
              e = EvMouse mouseX mouseY
              /\ 0 <= scan cols mouseX (colWidths s)
              /\ 0 <= scan rows mouseY (rowHeights s)))
  /\ (forall (mouseX mouseY dt : Q) (s : State),
        playing s = true ->
        0 <= scan cols mouseX (colWidths s) ->
        0 <= scan rows mouseY (rowHeights s) ->
        overlayShown (set_clock (clock s + dt) (mousePressed mouseX mouseY s))
        = Qlt_bool dt glitchOverlayDuration).
Proof.
  split.
  - intros noise [dt | inp | mouseX mouseY | | |] s s'; cbn [step].
    + destruct (Qle_bool 0 dt); [|done]. intros [= <-]. state_simpl.
      split; [done|]. by intros [[] | []].
    + intros [-> ->]%draw_overlay. split; [done|]. by intros [[] | []].
    + intros [= <-]. unfold mousePressed.
      destruct (Z.geb_spec (scan cols mouseX (colWidths s)) 0) as [Hci | Hci];
        [|split; [done|]; by intros [[] | []]].
      destruct (Z.geb_spec (scan rows mouseY (rowHeights s)) 0) as [Hrj | Hrj];
        [|split; [done|]; by intros [[] | []]].
      cbn [andb]. destruct (playing s) eqn:Hplay.
      * match goal with |- context [spreadGlitch ?a ?b ?c ?x] =>
          destruct (spreadGlitch_frame a b c x)
            as (_ & _ & _ & _ & -> & -> & _) end.
        state_simpl. split; [done|]. intros _. repeat (split; [done|]).
        exists mouseX, mouseY. repeat split; [lia | lia].
      * state_simpl. split; [done|]. by intros [[] | []].
    + unfold fireTimer. destruct (timers s) as [|tm rest]; [done|].
      destruct (Qle_bool _ _); [|done]. intros [= <-].
      destruct (spreadCallback_overlay (tm_i tm) (tm_j tm) (tm_depth tm)
                  (set_timers rest s)) as [-> ->].
      state_simpl. split; [done|]. by intros [[] | []].
    + intros [= <-]. split; [done|]. by intros [[] | []].
    + intros [= <-]. split; [done|]. by intros [[] | []].
  - intros mouseX mouseY dt s Hplay Hci Hrj. unfold overlayShown, mousePressed.
    rewrite Hplay. destruct (Z.geb_spec (scan cols mouseX (colWidths s)) 0);
      [|lia].
    destruct (Z.geb_spec (scan rows mouseY (rowHeights s)) 0); [|lia].
    cbn [andb]. state_simpl.
    match goal with |- context [spreadGlitch ?a ?b ?c ?x] =>
      destruct (spreadGlitch_frame a b c x)
        as (_ & _ & _ & _ & -> & -> & _) end.
    state_simpl. unfold Qlt_bool. cbn [andb]. f_equal.
    apply Qleb_comp; [reflexivity | ring].
Qed.

Lemma overlay_window_witness :
  overlayShown (set_clock (clock only22 + 299) (mousePressed 300 300 only22))
  = true
  /\ overlayShown (set_clock (clock only22 + 300) (mousePressed 300 300 only22))
     = false.
Proof.
  split.
  - by rewrite (proj2 overlay_window 300%Q 300%Q 299%Q only22);
      [| reflexivity | vm_compute | vm_compute].
  - by rewrite (proj2 overlay_window 300%Q 300%Q 300%Q only22);
      [| reflexivity | vm_compute | vm_compute].
Defined.

(** ** Invariants of the states that the sketch reaches *)

(** What every event preserves holds after a run of events. *)
Lemma run_preserves (noise : Q -> Q -> Q) (P : State -> Prop)
    (es : list Event) (s s' : State) :
  (forall e x x', P x -> step noise e x = Some x' -> P x') ->
  P s -> run noise es s = Some s' -> P s'.
Proof.
  intros Hstep. revert s. induction es as [|e es IH]; intros s Hs; cbn [run].
  - by intros [= <-].
  - intros (x & Hx & Hrun)%bind_Some. eapply IH; [|exact Hrun].
    by eapply Hstep.
Qed.

(** *** The timer queue *)

Lemma timersOrdered_spreadGlitch (i j depth : Z) (s : State) :
  timersOrdered s -> timersOrdered (spreadGlitch i j depth s).
Proof.
  intros [Hsorted Hdue].
  destruct (spreadGlitch_cases i j depth s) as [-> | (_ & _ & _ & ->)];
    [done|]. split; state_simpl.
  - apply StronglySorted_app. split; [|split; [done | repeat constructor]].
    intros a b Ha ->%list_elem_of_singleton. cbn [tm_due].
    rewrite Forall_forall in Hdue. by apply Hdue.
  - apply Forall_app. split; [done|]. apply Forall_singleton. cbn [tm_due].
    apply Qle_refl.
Qed.

Lemma timersOrdered_step (noise : Q -> Q -> Q) (e : Event) (s s' : State) :
  timersOrdered s -> step noise e s = Some s' -> timersOrdered s'.
Proof.
  intros [Hsorted Hdue]. destruct e as [dt | inp | mouseX mouseY | | |];
    cbn [step].
  - destruct (Qle_bool 0 dt) eqn:Hdt; [|done]. intros [= <-].
    apply Qle_bool_iff in Hdt. split; state_simpl; [done|].
    eapply Forall_impl; [exact Hdue|]. intros tm Htm. simpl in Htm. lra.
  - intros Hdraw. destruct (draw_frame _ _ _ _ Hdraw) as (_ & Ht & Hc & _).
    unfold timersOrdered. by rewrite Ht, Hc.
  - intros [= <-]. unfold mousePressed. destruct (_ && _); [|done].
    destruct (playing s); [|done]. by apply timersOrdered_spreadGlitch.
  - unfold fireTimer. destruct (timers s) as [|tm rest] eqn:Ht; [done|].
    destruct (Qle_bool _ _); [|done]. intros [= <-].
    apply spreadCallback_preserves.
    + apply StronglySorted_cons in Hsorted as [_ Hsorted].
      apply Forall_cons in Hdue as [_ Hdue]. by split.
    + intros. by apply timersOrdered_spreadGlitch.
  - intros [= <-]. by split.
  - intros [= <-]. by split.
Qed.

(** X9: in every state that a run of events from [setup] reaches, the pending
    callbacks are queued in the order of their due times, so that the oldest
    one, which the host runs first, is due no later than any other, and none
    is due more than 40 ms after the current time. *)
Theorem timers_due_in_order (noise : Q -> Q -> Q) (es : list Event)
    (s : State) :
  run noise es setup = Some s ->
  StronglySorted (fun a b => (tm_due a <= tm_due b)%Q) (timers s)
  /\ (forall tm rest, timers s = tm :: rest ->
        Forall (fun x => (tm_due tm <= tm_due x)%Q) rest)
  /\ Forall (fun tm => (tm_due tm <= clock s + 40)%Q) (timers s).
Proof.
  intros Hrun.
  assert (timersOrdered s) as [Hsorted Hdue].
  { eapply (run_preserves noise timersOrdered); [|  |exact Hrun].
    - intros e x x'. apply timersOrdered_step.
    - split; [constructor | constructor]. }
  split; [exact Hsorted|]. split; [|exact Hdue].
  intros tm rest Ht. rewrite Ht in Hsorted.
  by apply StronglySorted_cons in Hsorted as [? _].
Qed.

Lemma timers_due_in_order_witness :
  exists s,
    run (fun _ _ => 1 # 2)%Q
      [EvMouse 200 200; EvPlayPause; EvMouse 200 200; EvTick 10;
       EvMouse 200 200] setup = Some s
    /\ timers s = [mkTimer 40 2 2 3; mkTimer 50 2 2 3]
    /\ Forall (fun tm => (tm_due tm <= clock s + 40)%Q) (timers s).
Proof.
  pose proof (timers_due_in_order (fun _ _ => 1 # 2)%Q
                [EvMouse 200 200; EvPlayPause; EvMouse 200 200; EvTick 10;
                 EvMouse 200 200]) as H.
  destruct (run (fun _ _ => 1 # 2)%Q
              [EvMouse 200 200; EvPlayPause; EvMouse 200 200; EvTick 10;
               EvMouse 200 200] setup) as [s|] eqn:Hrun;
    [|vm_compute in Hrun; discriminate Hrun].
  exists s. destruct (H s eq_refl) as (_ & _ & Hdue).
  split; [reflexivity|]. split; [|exact Hdue].
  clear H Hdue. vm_compute in Hrun. injection Hrun as <-. reflexivity.
Defined.

(** *** The dimensions of the arrays *)

Lemma shaped_replicate {A} (x : A) :
  shaped (replicate (Z.to_nat cols) (replicate (Z.to_nat rows) x)).
Proof.
  split; [by rewrite length_replicate|].
  apply Forall_replicate. by rewrite length_replicate.
Qed.

Lemma shaped_toggle (ci rj : Z) (g : list (list bool)) :
  shaped g -> shaped (toggle ci rj g).
Proof.
  intros Hg. unfold toggle. destruct (at2 g ci rj) as [b|] eqn:Hb; [|done].
  destruct (store2_is_Some g ci rj (negb b) b Hb) as [g' Hg'].
  rewrite Hg'. simpl. by eapply shaped_store2.
Qed.

Lemma shaped_tickCell (i j : Z) (bf : list (list Z)) :
  shaped bf -> shaped (tickCell i j bf).
Proof.
  intros Hbf. unfold tickCell. destruct (at2 bf i j) as [v|] eqn:Hv; [|done].
  destruct (v >? 0); [|done].
  destruct (store2_is_Some bf i j (v - 1) v Hv) as [bf' Hbf'].
  rewrite Hbf'. simpl. by eapply shaped_store2.
Qed.

Lemma shaped_tickFlash (bf : list (list Z)) :
  shaped bf -> shaped (tickFlash bf).
Proof.
  rewrite tickFlash_allCells. generalize allCells. intros cells. revert bf.
  induction cells as [|c cells IH]; intros bf Hbf; [done|].
  cbn [foldl]. by apply IH, shaped_tickCell.
Qed.

(** A frame is the beat pass on a state whose grid is the old one and
    whose counters went through one render pass. *)
Lemma draw_beatPass (noise : Q -> Q -> Q) (inp : FrameInput) (s : State) :
  exists s1,
    draw noise inp s = beatPass (in_level inp) (in_random inp) s1
    /\ grid s1 = grid s /\ beatFlash s1 = tickFlash (beatFlash s).
Proof.
  eexists. split; [reflexivity|].
  unfold renderPass, recomputePartition, advanceTime, expireGlitch.
  destruct (glitchActive s && _); state_simpl;
    destruct (playing s); by state_simpl.
Qed.

Lemma draw_total (noise : Q -> Q -> Q) (inp : FrameInput) (s : State) :
  wellShaped s -> (forall n, 0 <= in_random inp n < 1)%Q ->
  exists s', draw noise inp s = Some s' /\ wellShaped s'.
Proof.
  intros [Hg Hbf] Hrnd.
  destruct (draw_beatPass noise inp s) as (s1 & -> & Hg1 & Hbf1).
  assert (shaped (beatFlash s1)) as Hshape
    by (rewrite Hbf1; by apply shaped_tickFlash).
  unfold beatPass. destruct (_ <? _)%float.
  - destruct (beatLoop_total (in_random inp) (flashCount (in_level inp))
                (beatFlash s1) Hshape) as (bf' & -> & Hbf');
      [intros; by apply beatPick_inGrid|].
    eexists. split; [reflexivity|]. split; state_simpl; [by rewrite Hg1 | done].
  - eexists. split; [reflexivity|]. split; state_simpl; [by rewrite Hg1 | done].
Qed.

Lemma wellShaped_step (noise : Q -> Q -> Q) (e : Event) (s s' : State) :
  wellShaped s -> step noise e s = Some s' -> wellShaped s'.
Proof.
  intros [Hg Hbf]. destruct e as [dt | inp | mouseX mouseY | | |]; cbn [step].
  - destruct (Qle_bool 0 dt); [|done]. by intros [= <-].
  - destruct (draw_beatPass noise inp s) as (s1 & -> & Hg1 & Hbf1).
    unfold beatPass. intros (bf & Hloop & [= <-])%bind_Some.
    split; state_simpl; [by rewrite Hg1|].
    destruct (_ <? _)%float; [|injection Hloop as <-; rewrite Hbf1;
                                by apply shaped_tickFlash].
    eapply (beatLoop_preserves shaped); [| |exact Hloop].
    + rewrite Hbf1. by apply shaped_tickFlash.
    + intros b b' k _ Hb Hst. by eapply shaped_store2.
  - intros [= <-]. split; [|by rewrite mousePressed_beatFlash].
    unfold mousePressed. destruct (_ && _); [|done].
    destruct (playing s).
    + by rewrite spreadGlitch_grid.
    + state_simpl. by apply shaped_toggle.
  - unfold fireTimer. destruct (timers s) as [|tm rest]; [done|].
    destruct (Qle_bool _ _); [|done]. intros [= <-].
    split; [|by rewrite spreadCallback_beatFlash].
    apply (spreadCallback_preserves (fun x => shaped (grid x))); [done|].
    intros. by rewrite spreadGlitch_grid.
  - by intros [= <-].
  - intros [= <-]. split; [apply shaped_replicate | done].
Qed.

(** X10: every state that a run of events from [setup] reaches keeps the
    grid and the flash counters at [cols] rows of [rows] entries, and in
    such a state a frame whose unit samples lie in [0, 1) completes: none of
    its writes falls outside an array. *)
Theorem frames_never_fail (noise : Q -> Q -> Q) (es : list Event)
    (s : State) (inp : FrameInput) :
  run noise es setup = Some s ->
  (forall n, 0 <= in_random inp n < 1)%Q ->
  shaped (grid s) /\ shaped (beatFlash s)
  /\ exists s', draw noise inp s = Some s'
       /\ shaped (grid s') /\ shaped (beatFlash s').
Proof.
  intros Hrun Hrnd.
  assert (wellShaped s) as Hs.
  { eapply (run_preserves noise wellShaped); [| |exact Hrun].
    - intros e x x'. apply wellShaped_step.
    - split; apply shaped_replicate. }
  destruct (draw_total noise inp s Hs Hrnd) as (s' & Hdraw & Hs').
  destruct Hs as [? ?]. split; [done|]. split; [done|]. by exists s'.
Qed.

Lemma frames_never_fail_witness :
  exists s s',
    run (fun _ _ => 1 # 2)%Q
      [EvMouse 200 200; EvPlayPause; EvMouse 200 200; EvTick 40; EvTimer]
      setup = Some s
    /\ draw (fun _ _ => 1 # 2)%Q
         (mkFrameInput 0.01 0.5 0.35 (fun _ => 1 # 2)%Q) s = Some s'
    /\ shaped (beatFlash s').
Proof.
  pose proof (fun s H =>
    frames_never_fail (fun _ _ => 1 # 2)%Q
      [EvMouse 200 200; EvPlayPause; EvMouse 200 200; EvTick 40; EvTimer]
      s (mkFrameInput 0.01 0.5 0.35 (fun _ => 1 # 2)%Q) H
      ltac:(intros n; split; [discriminate | reflexivity])) as H.
  destruct (run (fun _ _ => 1 # 2)%Q
              [EvMouse 200 200; EvPlayPause; EvMouse 200 200; EvTick 40;
               EvTimer] setup) as [s|] eqn:Hrun;
    [|vm_compute in Hrun; discriminate Hrun].
  destruct (H s eq_refl) as (_ & _ & s' & Hdraw & _ & Hshape).
  clear H Hrun. exists s, s'. split; [reflexivity|].
  split; [exact Hdraw | exact Hshape].
Defined.

(** *** The range of the flash counters *)

Lemma tick_bounded (v : Z) : 0 <= v <= 4 -> 0 <= tick v <= 4.
Proof. unfold tick. destruct (Z.gtb_spec v 0); lia. Qed.

Lemma flashBounded_tickFlash (bf : list (list Z)) :
  flashBounded bf -> flashBounded (tickFlash bf).
Proof.
  intros Hbf i j v.
  destruct (decide (0 <= i < cols /\ 0 <= j < rows)) as [Hin | Hout].
  - rewrite at2_tickFlash by done.
    intros (w & Hw & ->)%fmap_Some. apply tick_bounded. by eapply Hbf.
  - rewrite at2_tickFlash_outside by done. apply Hbf.
Qed.

Lemma flashBounded_store2 (bf bf' : list (list Z)) (i j : Z) :
  flashBounded bf -> store2 bf i j 4 = Some bf' -> flashBounded bf'.
Proof.
  intros Hbf Hst i' j' w. rewrite (at2_store2 _ _ _ _ _ _ _ Hst).
  destruct (decide _); [intros [= <-]; lia | apply Hbf].
Qed.

Lemma flashBounded_step (noise : Q -> Q -> Q) (e : Event) (s s' : State) :
  flashBounded (beatFlash s) -> step noise e s = Some s' ->
  flashBounded (beatFlash s').
Proof.
  intros Hs. destruct e as [dt | inp | mouseX mouseY | | |]; cbn [step].
  - destruct (Qle_bool 0 dt); [|done]. by intros [= <-].
  - destruct (draw_beatPass noise inp s) as (s1 & -> & _ & Hbf1).
    unfold beatPass. intros (bf & Hloop & [= <-])%bind_Some. state_simpl.
    assert (flashBounded (beatFlash s1)) as H1
      by (rewrite Hbf1; by apply flashBounded_tickFlash).
    destruct (_ <? _)%float; [|by injection Hloop as <-].
    eapply (beatLoop_preserves flashBounded); [exact H1 | |exact Hloop].
    intros b b' k _ Hb Hst. by eapply flashBounded_store2.
  - intros [= <-]. by rewrite mousePressed_beatFlash.
  - unfold fireTimer. destruct (timers s) as [|tm rest]; [done|].
    destruct (Qle_bool _ _); [|done]. intros [= <-].
    by rewrite spreadCallback_beatFlash.
  - by intros [= <-].
  - by intros [= <-].
Qed.

Lemma flashBounded_setup : flashBounded (beatFlash setup).
Proof.
  intros i j v (row & Hrow & Hv)%bind_Some.
  apply at_index_Some in Hrow as [_ Hrow]. apply at_index_Some in Hv as [_ Hv].
  apply list_elem_of_lookup_2 in Hrow, Hv.
  change (beatFlash setup)
    with (replicate (Z.to_nat cols) (replicate (Z.to_nat rows) 0)) in Hrow.
  apply elem_of_replicate in Hrow as [-> _].
  apply elem_of_replicate in Hv as [-> _]. lia.
Qed.

(** X11: in every state that a run of events from [setup] reaches, every
    flash counter lies between 0 and 4, and four render passes with no beat
    in between bring every counter of the grid to 0: a flash lasts four
    frames at most. *)
Theorem flash_counters_bounded (noise : Q -> Q -> Q) (es : list Event)
    (s : State) :
  run noise es setup = Some s ->
  (forall i j v, at2 (beatFlash s) i j = Some v -> 0 <= v <= 4)
  /\ (forall i j v, inGrid (i, j) ->
        at2 (tickFlash (tickFlash (tickFlash (tickFlash (beatFlash s))))) i j
        = Some v -> v = 0).
Proof.
  intros Hrun.
  assert (flashBounded (beatFlash s)) as Hs.
  { eapply (run_preserves noise (fun x => flashBounded (beatFlash x)));
      [| |exact Hrun].
    - intros e x x'. apply flashBounded_step.
    - exact flashBounded_setup. }
  split; [exact Hs|]. intros i j v Hin. rewrite !at2_tickFlash by done.
  destruct (at2 (beatFlash s) i j) as [w|] eqn:Hw; [|done].
  specialize (Hs i j w Hw). cbn [fmap option_fmap option_map]. intros [= <-].
  assert (w = 0 \/ w = 1 \/ w = 2 \/ w = 3 \/ w = 4) as Hcases by lia.
  by destruct Hcases as [-> | [-> | [-> | [-> | ->]]]].
Qed.

Lemma flash_counters_bounded_witness :
  exists s,
    run (fun _ _ => 1 # 2)%Q
      [EvFrame (mkFrameInput 0.01 0.5 0.35 sweepRandom);
       EvFrame (mkFrameInput 0.01 0.5 0.35 sweepRandom)] setup = Some s
    /\ at2 (beatFlash s) 0 0 = Some 3
    /\ forall i j v, at2 (beatFlash s) i j = Some v -> 0 <= v <= 4.
Proof.
  pose proof (flash_counters_bounded (fun _ _ => 1 # 2)%Q
      [EvFrame (mkFrameInput 0.01 0.5 0.35 sweepRandom);
       EvFrame (mkFrameInput 0.01 0.5 0.35 sweepRandom)]) as H.
  destruct (run (fun _ _ => 1 # 2)%Q
      [EvFrame (mkFrameInput 0.01 0.5 0.35 sweepRandom);
       EvFrame (mkFrameInput 0.01 0.5 0.35 sweepRandom)] setup)
    as [s|] eqn:Hrun; [|vm_compute in Hrun; discriminate Hrun].
  exists s. destruct (H s eq_refl) as (Hb & _). clear H.
  split; [reflexivity|]. split; [|exact Hb]. clear Hb.
  vm_compute in Hrun. injection Hrun as <-. reflexivity.
Defined.

(** ** The size of a wave *)

Lemma cellBudget_app (l1 l2 : list Timer) :
  foldr (fun tm n => (timerWeight tm - 1 + n)%nat) O (l1 ++ l2)
  = (foldr (fun tm n => (timerWeight tm - 1 + n)%nat) O l1
     + foldr (fun tm n => (timerWeight tm - 1 + n)%nat) O l2)%nat.
Proof. induction l1 as [|tm l1 IH]; simpl; [done|]. rewrite IH. lia. Qed.

Lemma budget_spreadGlitch (i j depth : Z) (s : State) :
  (length (glitchCells (spreadGlitch i j depth s))
   + cellBudget (spreadGlitch i j depth s)
   <= length (glitchCells s) + cellBudget s
      + ringWeight (Z.to_nat (depth - 1)))%nat.
Proof.
  destruct (spreadGlitch_cases i j depth s) as [-> | (_ & _ & _ & ->)]; [lia|].
  unfold cellBudget. state_simpl. rewrite cellBudget_app, length_app.
  cbn [foldr length]. unfold timerWeight. cbn [tm_depth].
  pose proof (ringWeight_pos (Z.to_nat (depth - 1))). lia.
Qed.

Lemma budget_spreadCallback (i j depth : Z) (s : State) :
  (length (glitchCells (spreadCallback i j depth s))
   + cellBudget (spreadCallback i j depth s) + 1
   <= length (glitchCells s) + cellBudget s
      + ringWeight (Z.to_nat (depth - 1)))%nat.
Proof.
  destruct (Z.le_gt_cases depth 1) as [Hd | Hd].
  - rewrite spreadCallback_depth_1 by done.
    pose proof (ringWeight_pos (Z.to_nat (depth - 1))). lia.
  - replace (Z.to_nat (depth - 1)) with (S (Z.to_nat (depth - 1 - 1))) by lia.
    cbn [ringWeight]. rewrite spreadCallback_unfold.
    repeat match goal with
    | |- context [cellBudget (spreadGlitch ?a ?b ?c ?x)] =>
        let H := fresh in
        pose proof (budget_spreadGlitch a b c x) as H;
        generalize dependent (cellBudget (spreadGlitch a b c x));
        generalize dependent (length (glitchCells (spreadGlitch a b c x)))
    end.
    intros. lia.
Qed.

Lemma budget_fireNext (s : State) :
  (length (glitchCells (fireNext s)) + cellBudget (fireNext s)
   <= length (glitchCells s) + cellBudget s)%nat.
Proof.
  rewrite fireNext_unfold. destruct (timers s) as [|tm rest] eqn:Ht; [lia|].
  pose proof (budget_spreadCallback (tm_i tm) (tm_j tm) (tm_depth tm)
                (set_timers rest (waitDue s))) as H.
  destruct (waitDue_frame s) as (_ & Hc & _).
  unfold cellBudget, timerWeight in *. state_simpl. rewrite Hc in H.
  rewrite Ht. cbn [foldr].
  pose proof (ringWeight_pos (Z.to_nat (tm_depth tm - 1))). lia.
Qed.

Lemma budget_runWave (n : nat) (s : State) :
  (length (glitchCells (runWave n s)) + cellBudget (runWave n s)
   <= length (glitchCells s) + cellBudget s)%nat.
Proof.
  revert s. induction n as [|n IH]; intros s; [done|]. cbn [runWave].
  etrans; [apply IH | apply budget_fireNext].
Qed.

(** X12: a wave of depth [depth], started with no other callback pending,
    adds at most [ringWeight (depth - 1)] entries to the glitch cells
    however long it runs: 1 for depth 1, 9 for depth 2 and 73 for the depth
    3 of a click.  So after a click while the music plays that the scan
    places in a cell, with no callback pending, the glitch cells never hold
    more than 73 entries; a click that the scan places in no cell leaves
    the glitch cells as they were, however many. *)
Theorem wave_size_bounded :
  (forall (i j depth : Z) (s : State) (n : nat),
     timers s = [] ->
     (length (glitchCells (runWave n (spreadGlitch i j depth s)))
      <= length (glitchCells s) + ringWeight (Z.to_nat (depth - 1)))%nat)
  /\ (forall (mouseX mouseY : Q) (s : State) (n : nat),
        timers s = [] -> playing s = true ->
        0 <= scan cols mouseX (colWidths s) ->
        0 <= scan rows mouseY (rowHeights s) ->
        (length (glitchCells (runWave n (mousePressed mouseX mouseY s)))
         <= 73)%nat)
  /\ (forall (mouseX mouseY : Q) (s : State) (n : nat),
        timers s = [] ->
        scan cols mouseX (colWidths s) < 0
        \/ scan rows mouseY (rowHeights s) < 0 ->
        glitchCells (runWave n (mousePressed mouseX mouseY s))
        = glitchCells s).
Proof.
  assert (forall (i j depth : Z) (s : State) (n : nat),
     timers s = [] ->
     (length (glitchCells (runWave n (spreadGlitch i j depth s)))
      <= length (glitchCells s) + ringWeight (Z.to_nat (depth - 1)))%nat)
    as Hwave.
  { intros i j depth s n Ht.
    pose proof (budget_runWave n (spreadGlitch i j depth s)) as H1.
    pose proof (budget_spreadGlitch i j depth s) as H2.
    assert (cellBudget s = O) as H0 by (unfold cellBudget; by rewrite Ht).
    lia. }
  split; [exact Hwave|]. split.
  - intros mouseX mouseY s n Ht Hplay Hci Hrj. unfold mousePressed.
    destruct (Z.geb_spec (scan cols mouseX (colWidths s)) 0) as [_ | ?];
      [|lia].
    destruct (Z.geb_spec (scan rows mouseY (rowHeights s)) 0) as [_ | ?];
      [|lia].
    cbn [andb]. rewrite Hplay.
    match goal with |- context [spreadGlitch ?a ?b 3 ?x] =>
      pose proof (Hwave a b 3 x n Ht) as H end.
    state_simpl. change (ringWeight (Z.to_nat (3 - 1))) with 73%nat in H.
    cbn [length] in H. lia.
  - intros mouseX mouseY s n Ht Hmiss. unfold mousePressed.
    destruct (Z.geb_spec (scan cols mouseX (colWidths s)) 0) as [Hci | Hci];
      destruct (Z.geb_spec (scan rows mouseY (rowHeights s)) 0) as [Hrj | Hrj];
      cbn [andb]; try (by rewrite runWave_idle).
    lia.
Qed.

Lemma wave_size_bounded_witness :
  (length (glitchCells (runWave 5 (mousePressed 200 200 only22))) <= 73)%nat
  /\ glitchCells (runWave 5 (mousePressed (-5) 200 only22))
     = glitchCells only22.
Proof.
  split.
  - apply (proj1 (proj2 wave_size_bounded) 200%Q 200%Q only22 5%nat);
      [reflexivity | reflexivity | discriminate | discriminate].
  - apply (proj2 (proj2 wave_size_bounded) (-5)%Q 200%Q only22 5%nat);
      [reflexivity | left; reflexivity].
Defined.

(** ** The animation clock (script.js 111-134) *)

Lemma draw_time (noise : Q -> Q -> Q) (inp : FrameInput) (s s' : State) :
  draw noise inp s = Some s' ->
  playing s' = playing s
  /\ t s' = (if playing s then (t s + in_speed inp)%Q else t s)
  /\ colWidths s'
     = normalize (rawWeights noise cols (t s') (in_strength inp)) width
  /\ rowHeights s'
     = normalize (rawWeights noise rows (t s' + 100) (in_strength inp)) height.
Proof.
  unfold draw, beatPass. intros (bf & _ & [= <-])%bind_Some.
  unfold renderPass, recomputePartition, advanceTime, expireGlitch.
  destruct (glitchActive s && _); state_simpl;
    destruct (playing s) eqn:Hp; state_simpl; by rewrite ?Hp.
Qed.

(** X13: a frame advances the noise time [t] by the speed slider while the
    music plays and leaves it alone while it is paused; the partition it
    leaves is the one of the new [t] and of the strength slider, so that
    paused frames with the same strength all leave the same partition. *)
Theorem paused_frames_keep_layout (noise : Q -> Q -> Q)
    (inp1 inp2 : FrameInput) (s s1 s2 : State) :
  draw noise inp1 s = Some s1 -> draw noise inp2 s1 = Some s2 ->
  (playing s = true ->
   t s1 = (t s + in_speed inp1)%Q
   /\ t s2 = (t s + in_speed inp1 + in_speed inp2)%Q)
  /\ (playing s = false ->
      t s2 = t s
      /\ (in_strength inp1 = in_strength inp2 ->
          colWidths s2 = colWidths s1 /\ rowHeights s2 = rowHeights s1))
  /\ colWidths s1
     = normalize (rawWeights noise cols (t s1) (in_strength inp1)) width
  /\ rowHeights s1
     = normalize (rawWeights noise rows (t s1 + 100) (in_strength inp1))
         height
  /\ colWidths s2
     = normalize (rawWeights noise cols (t s2) (in_strength inp2)) width
  /\ rowHeights s2
     = normalize (rawWeights noise rows (t s2 + 100) (in_strength inp2))
         height.
Proof.
  intros (Hp1 & Ht1 & Hc1 & Hr1)%draw_time (Hp2 & Ht2 & Hc2 & Hr2)%draw_time.
  split; [|split; [|done]].
  - intros Hplay. rewrite Hp1, Hplay in Ht2. rewrite Hplay in Ht1.
    by rewrite Ht2, Ht1.
  - intros Hplay. rewrite Hp1, Hplay in Ht2. rewrite Hplay in Ht1.
    rewrite Ht2, Ht1. split; [done|]. intros Hstr.
    by rewrite Hc2, Hr2, Hc1, Hr1, Ht2, Hstr.
Qed.

Lemma paused_frames_keep_layout_witness :
  exists s1 s2,
    draw (fun _ _ => 1 # 3)%Q
      (mkFrameInput 0.01 0.5 0 (fun _ => 0%Q)) setup = Some s1
    /\ draw (fun _ _ => 1 # 3)%Q
         (mkFrameInput 0.02 0.5 0.3 (fun _ => 0%Q)) s1 = Some s2
    /\ t s2 = t setup /\ colWidths s2 = colWidths s1.
Proof.
  pose proof (paused_frames_keep_layout (fun _ _ => 1 # 3)%Q
                (mkFrameInput 0.01 0.5 0 (fun _ => 0%Q))
                (mkFrameInput 0.02 0.5 0.3 (fun _ => 0%Q)) setup) as H.
  destruct (draw (fun _ _ => 1 # 3)%Q
              (mkFrameInput 0.01 0.5 0 (fun _ => 0%Q)) setup)
    as [s1|] eqn:H1; [|vm_compute in H1; discriminate H1].
  destruct (draw (fun _ _ => 1 # 3)%Q
              (mkFrameInput 0.02 0.5 0.3 (fun _ => 0%Q)) s1)
    as [s2|] eqn:H2.
  - destruct (H s1 s2 eq_refl H2) as (_ & Hpaused & _). clear H H1.
    destruct (Hpaused eq_refl) as [Ht Hlayout].
    destruct (Hlayout eq_refl) as [Hc _].
    exists s1, s2. split; [reflexivity|]. split; [exact H2|].
    split; [exact Ht | exact Hc].
  - exfalso. clear H. vm_compute in H1. injection H1 as <-.
    vm_compute in H2. discriminate H2.
Defined.

(** ** The render pass in full *)

Lemma cellMode_ext (s : State) (bf bf' : list (list Z)) (i j : Z) :
  at2 bf i j = at2 bf' i j -> cellMode s bf i j = cellMode s bf' i j.
Proof. intros H. unfold cellMode. by rewrite H. Qed.

Lemma offset_step (sizes : list Q) (i : Z) :
  0 <= i < Z.of_nat (length sizes) ->
  offset sizes (i + 1) = (offset sizes i + sizeAt sizes i)%Q.
Proof.
  intros Hi. destruct (lookup_lt_is_Some_2 sizes (Z.to_nat i)) as [w Hw]; [lia|].
  unfold offset, sizeAt, at_index. destruct (Z.ltb_spec i 0); [lia|].
  replace (Z.to_nat (i + 1)) with (S (Z.to_nat i)) by lia.
  rewrite (take_S_r _ _ _ Hw), Hw. unfold reduce_sum. by rewrite foldl_app.
Qed.

Lemma fmap_bind_singleton {A B C} (f : B -> C) (g : A -> B) (l : list A) :
  f <$> (x ← l; [g x]) = (fun x => f (g x)) <$> l.
Proof. induction l as [|x l IH]; [done|]. cbn. by rewrite IH. Qed.

(** The inner loop from column [i0] on, over counters that still agree with
    those of the state on the cells to come. *)
Lemma render_cells (s : State) (j : Z) (n : nat) (i0 : Z)
    (bf : list (list Z)) (out : list Slot) :
  0 <= i0 -> i0 + Z.of_nat n <= Z.of_nat (length (colWidths s)) ->
  (forall i, i0 <= i < i0 + Z.of_nat n ->
     at2 bf i j = at2 (beatFlash s) i j) ->
  foldl (renderCell s j (offset (rowHeights s) j))
    (offset (colWidths s) i0, bf, out) (seqZ i0 (Z.of_nat n))
  = (offset (colWidths s) (i0 + Z.of_nat n),
     foldl (fun b i => tickCell i j b) bf (seqZ i0 (Z.of_nat n)),
     out ++ ((fun i => slotOf s (i, j)) <$> seqZ i0 (Z.of_nat n))).
Proof.
  revert i0 bf out. induction n as [|n IH]; intros i0 bf out Hi0 Hlen Hbf.
  - rewrite seqZ_nil by lia. cbn [foldl fmap list_fmap].
    by rewrite Z.add_0_r, app_nil_r.
  - rewrite seqZ_cons by lia. cbn [foldl fmap list_fmap].
    replace (Z.pred (Z.of_nat (S n))) with (Z.of_nat n) by lia.
    unfold renderCell at 2. rewrite <- offset_step by lia.
    unfold Z.succ. rewrite IH; [|lia | lia |].
    + replace (i0 + 1 + Z.of_nat n) with (i0 + Z.of_nat (S n)) by lia.
      rewrite <- app_assoc. cbn [app]. do 3 f_equal.
      unfold slotOf. cbn [fst snd]. f_equal. apply cellMode_ext, Hbf. lia.
    + intros i Hi. rewrite at2_tickCell.
      rewrite decide_False by (intros [= ->]; lia). apply Hbf. lia.
Qed.

Lemma at2_tick_row (j j' i' : Z) (cs : list Z) (bf : list (list Z)) :
  j' <> j ->
  at2 (foldl (fun b i => tickCell i j b) bf cs) i' j' = at2 bf i' j'.
Proof.
  intros Hne. revert bf. induction cs as [|i cs IH]; intros bf; [done|].
  cbn [foldl]. rewrite IH, at2_tickCell.
  by rewrite decide_False by (intros [= -> ->]; done).
Qed.

(** The outer loop from row [j0] on. *)
Lemma render_rows (s : State) (m : nat) (j0 : Z) (bf : list (list Z))
    (out : list Slot) :
  Z.of_nat (length (colWidths s)) = cols ->
  0 <= j0 -> j0 + Z.of_nat m <= Z.of_nat (length (rowHeights s)) ->
  (forall i j, j0 <= j < j0 + Z.of_nat m ->
     at2 bf i j = at2 (beatFlash s) i j) ->
  foldl (renderRow s) (offset (rowHeights s) j0, bf, out)
    (seqZ j0 (Z.of_nat m))
  = (offset (rowHeights s) (j0 + Z.of_nat m),
     foldl (fun b j => foldl (fun b i => tickCell i j b) b (seqZ 0 cols))
       bf (seqZ j0 (Z.of_nat m)),
     out ++ (slotOf s <$> (j ← seqZ j0 (Z.of_nat m);
                           i ← seqZ 0 cols; [(i, j)]))).
Proof.
  intros Hcols. revert j0 bf out.
  induction m as [|m IH]; intros j0 bf out Hj0 Hlen Hbf.
  - rewrite seqZ_nil by lia. cbn [foldl mbind list_bind fmap list_fmap].
    by rewrite Z.add_0_r, app_nil_r.
  - rewrite seqZ_cons by lia. cbn [foldl mbind list_bind].
    replace (Z.pred (Z.of_nat (S m))) with (Z.of_nat m) by lia.
    unfold renderRow at 2.
    change 0%Q with (offset (colWidths s) 0).
    replace cols with (Z.of_nat (Z.to_nat cols)) at 1 by done.
    rewrite render_cells; [|lia | rewrite Hcols; unfold cols; lia |].
    + rewrite <- offset_step by lia. unfold Z.succ.
      rewrite IH; [|lia | lia |].
      * replace (j0 + 1 + Z.of_nat m) with (j0 + Z.of_nat (S m)) by lia.
        rewrite fmap_app, app_assoc.
        change (Z.of_nat (Z.to_nat cols)) with cols.
        by rewrite (fmap_bind_singleton (slotOf s) (fun i => (i, j0))).
      * intros i j Hj. rewrite at2_tick_row by lia. apply Hbf. lia.
    + intros i _. apply Hbf. lia.
Qed.

Lemma renderFrame_spec (s : State) :
  Z.of_nat (length (colWidths s)) = cols ->
  Z.of_nat (length (rowHeights s)) = rows ->
  renderFrame s = (tickFlash (beatFlash s), slotOf s <$> allCells).
Proof.
  intros Hc Hr. unfold renderFrame.
  change 0%Q with (offset (rowHeights s) 0).
  replace rows with (Z.of_nat (Z.to_nat rows)) at 1 by done.
  rewrite render_rows; [| exact Hc | lia | rewrite Hr; unfold rows; lia | done].
  change (Z.of_nat (Z.to_nat rows)) with rows. cbv beta iota.
  unfold tickFlash, allCells. rewrite app_nil_l. reflexivity.
Qed.

Example renderFrame_setup :
  exists sl,
    snd (renderFrame (mousePressed 200 200 setup)) !! 32%nat = Some sl
    /\ (slot_i sl, slot_j sl, slot_mode sl, slot_filled sl)
       = (2, 2, Normal, true)
    /\ (slot_x sl == 160 /\ slot_y sl == 160)%Q
    /\ (slot_w sl == 80 /\ slot_h sl == 80)%Q.
Proof. eexists. split; [by vm_compute|]. by vm_compute. Qed.

(** X14: on a partition of [cols] widths and [rows] heights the render pass
    leaves the counters that [renderPass] computes and draws every cell
    once, row by row: the corner of a cell is the sum of the widths before
    its column and of the heights before its row, so that the slots of a row
    abut from 0 on, and its mode is decided by its counter as it was before
    the pass. *)
Theorem render_pass_slots (s : State) :
  Z.of_nat (length (colWidths s)) = cols ->
  Z.of_nat (length (rowHeights s)) = rows ->
  fst (renderFrame s) = beatFlash (renderPass s)
  /\ snd (renderFrame s) = slotOf s <$> allCells
  /\ (forall j, slot_x (slotOf s (0, j)) = 0%Q)
  /\ (forall i j, 0 <= i < cols ->
        slot_x (slotOf s (i + 1, j))
        = (slot_x (slotOf s (i, j)) + slot_w (slotOf s (i, j)))%Q)
  /\ (forall i j, 0 <= j < rows ->
        slot_y (slotOf s (i, j + 1))
        = (slot_y (slotOf s (i, j)) + slot_h (slotOf s (i, j)))%Q).
Proof.
  intros Hc Hr. rewrite (renderFrame_spec s Hc Hr). cbn [fst snd].
  split; [unfold renderPass; state_simpl; reflexivity|].
  split; [reflexivity|]. split; [intros j; reflexivity|]. split.
  - intros i j Hi. unfold slotOf. cbn [fst snd slot_x slot_w].
    apply offset_step. lia.
  - intros i j Hj. unfold slotOf. cbn [fst snd slot_y slot_h].
    apply offset_step. lia.
Qed.

Lemma render_pass_slots_witness :
  fst (renderFrame setup) = beatFlash (renderPass setup)
  /\ snd (renderFrame setup) = slotOf setup <$> allCells.
Proof.
  destruct (render_pass_slots setup) as (H1 & H2 & _);
    [reflexivity | reflexivity |].
  split; [exact H1 | exact H2].
Defined.

(** The scan answers the one index whose interval holds the position. *)
Lemma scan_unique (n i : Z) (pos : Q) (sizes : list Q) :
  0 <= n <= Z.of_nat (length sizes) ->
  Forall (fun w => 0 <= w)%Q sizes -> 0 <= i < n ->
  (offset sizes i <= pos < offset sizes (i + 1))%Q ->
  scan n pos sizes = i.
Proof.
  intros Hn Hpos Hi [Hlo Hhi].
  pose proof (scan_found_iff n pos sizes Hn Hpos) as Hiff.
  pose proof (scan_interval n pos sizes) as Hint.
  pose proof (offset_mono sizes 0 i Hpos ltac:(lia)) as H0.
  pose proof (offset_mono sizes (i + 1) n Hpos ltac:(lia)) as H1.
  rewrite offset_0 in H0.
  assert (0 <= scan n pos sizes) as Hfound by (apply Hiff; lra).
  specialize (Hint Hfound). destruct Hint as [Hrlo Hrhi].
  destruct (Z.lt_trichotomy (scan n pos sizes) i) as [Hlt | [Heq | Hgt]];
    [|exact Heq|].
  - pose proof (offset_mono sizes (scan n pos sizes + 1) i Hpos ltac:(lia)).
    lra.
  - pose proof (offset_mono sizes (i + 1) (scan n pos sizes) Hpos ltac:(lia)).
    lra.
Qed.

(** X15: on a partition of [cols] widths and [rows] heights, none negative,
    the scan of a click gives the column of a cell exactly when the x of
    the click lies in the slot that the render pass computes for the cell,
    from [xOff] up to, and not at, [xOff + w]; it gives the row of the cell
    exactly when the y lies from [yOff] up to, and not at, [yOff + h].  The
    slot is the rectangle of the cell in the normal and in the inverted
    mode; the rectangles of the other two modes are scaled or shifted
    against it, and the theorem does not speak of them. *)
Theorem click_hits_drawn_slot (s : State) (mouseX mouseY : Q) (sl : Slot) :
  Z.of_nat (length (colWidths s)) = cols ->
  Z.of_nat (length (rowHeights s)) = rows ->
  Forall (fun w => 0 <= w)%Q (colWidths s) ->
  Forall (fun h => 0 <= h)%Q (rowHeights s) ->
  sl ∈ snd (renderFrame s) ->
  (scan cols mouseX (colWidths s) = slot_i sl
   <-> (slot_x sl <= mouseX < slot_x sl + slot_w sl)%Q)
  /\ (scan rows mouseY (rowHeights s) = slot_j sl
      <-> (slot_y sl <= mouseY < slot_y sl + slot_h sl)%Q).
Proof.
  intros Hc Hr Hcpos Hrpos. rewrite (renderFrame_spec s Hc Hr). cbn [snd].
  intros ([i j] & -> & [Hi Hj]%elem_of_allCells)%list_elem_of_fmap.
  cbn [fst snd] in Hi, Hj. unfold slotOf.
  cbn [fst snd slot_i slot_j slot_x slot_y slot_w slot_h].
  rewrite <- !offset_step by lia. split; split.
  - intros <-. apply scan_interval. lia.
  - intros Hin. apply scan_unique; [lia | done | lia | done].
  - intros <-. apply scan_interval. lia.
  - intros Hin. apply scan_unique; [lia | done | lia | done].
Qed.

Lemma click_hits_drawn_slot_witness :
  (scan cols 200 (colWidths setup) = slot_i (slotOf setup (2%Z, 2%Z))
   <-> (slot_x (slotOf setup (2%Z, 2%Z)) <= 200
        < slot_x (slotOf setup (2%Z, 2%Z)) + slot_w (slotOf setup (2%Z, 2%Z)))%Q)
  /\ (scan rows 100 (rowHeights setup) = slot_j (slotOf setup (2%Z, 2%Z))
      <-> (slot_y (slotOf setup (2%Z, 2%Z)) <= 100
           < slot_y (slotOf setup (2%Z, 2%Z)) + slot_h (slotOf setup (2%Z, 2%Z)))%Q).
Proof.
  apply (click_hits_drawn_slot setup 200 100 (slotOf setup (2%Z, 2%Z))).
  - reflexivity.
  - reflexivity.
  - vm_compute. repeat (constructor; [discriminate|]). constructor.
  - vm_compute. repeat (constructor; [discriminate|]). constructor.
  - apply (list_elem_of_lookup_2 _ 32%nat). by vm_compute.
Defined.

Lemma inGlitchCells_spec (cells : list (Z * Z)) (i j : Z) :
  inGlitchCells cells i j = true <-> (i, j) ∈ cells.
Proof.
  unfold inGlitchCells. rewrite existsb_exists. split.
  - intros ([ci cj] & Hin & H). cbn [fst snd] in H.
    apply andb_true_iff in H as [->%Z.eqb_eq ->%Z.eqb_eq].
    by apply list_elem_of_In.
  - intros Hin. exists (i, j). split; [by apply list_elem_of_In|].
    cbn [fst snd]. by rewrite !Z.eqb_refl.
Qed.

(** X16: on a partition of [cols] widths and [rows] heights, a cell is drawn
    flashing exactly when its counter was positive before the pass, whatever
    the session; otherwise it is drawn glitching exactly when a session is
    active and the glitch cells hold it, inverted when a session is active
    and they do not, and normal when no session is active: glitch cells
    that arrive after the session ended are not drawn as such. *)
Theorem render_modes (s : State) (sl : Slot) :
  Z.of_nat (length (colWidths s)) = cols ->
  Z.of_nat (length (rowHeights s)) = rows ->
  sl ∈ snd (renderFrame s) ->
  let flash :=
    exists v, at2 (beatFlash s) (slot_i sl) (slot_j sl) = Some v /\ 0 < v in
  inGrid (slot_i sl, slot_j sl)
  /\ (slot_mode sl = Flashing <-> flash)
  /\ (slot_mode sl = Glitching <->
      ~ flash /\ glitchActive s = true
      /\ (slot_i sl, slot_j sl) ∈ glitchCells s)
  /\ (slot_mode sl = Inverted <->
      ~ flash /\ glitchActive s = true
      /\ (slot_i sl, slot_j sl) ∉ glitchCells s)
  /\ (slot_mode sl = Normal <-> ~ flash /\ glitchActive s = false).
Proof.
  intros Hc Hr. rewrite (renderFrame_spec s Hc Hr). cbn [snd].
  intros ([i j] & -> & Hin%elem_of_allCells)%list_elem_of_fmap.
  unfold slotOf. cbn [fst snd slot_i slot_j slot_mode]. cbv zeta.
  split; [exact Hin|]. unfold cellMode.
  pose proof (inGlitchCells_spec (glitchCells s) i j) as Hmem.
  assert (default false ((fun v => v >? 0) <$> at2 (beatFlash s) i j) = true
          <-> exists v, at2 (beatFlash s) i j = Some v /\ 0 < v) as Hflash.
  { destruct (at2 (beatFlash s) i j) as [v|]; cbn.
    - destruct (Z.gtb_spec v 0); split; try done.
      + intros _. exists v. split; [done | lia].
      + intros (w & [= <-] & Hw). lia.
    - split; [done | by intros (v & ? & _)]. }
  destruct (default false _).
  - assert (exists v, at2 (beatFlash s) i j = Some v /\ 0 < v) as Hf
      by (by apply Hflash).
    split; [by split|].
    split; [split; [done | intros [Hn _]; destruct (Hn Hf)]|].
    split; [split; [done | intros [Hn _]; destruct (Hn Hf)]|].
    split; [done | intros [Hn _]; destruct (Hn Hf)].
  - assert (~ exists v, at2 (beatFlash s) i j = Some v /\ 0 < v) as Hnf.
    { intros Hf. by apply Hflash in Hf. }
    destruct (glitchActive s); cbn [andb].
    + destruct (inGlitchCells (glitchCells s) i j).
      * assert ((i, j) ∈ glitchCells s) as Hc' by (by apply Hmem).
        split; [split; [done | intros Hf; destruct (Hnf Hf)]|].
        split; [split; [intros _; by repeat split | done]|].
        split; [split; [done | intros (_ & _ & Hn); destruct (Hn Hc')]|].
        split; [done | by intros [_ ?]].
      * assert ((i, j) ∉ glitchCells s) as Hc'.
        { intros Hc'. by apply Hmem in Hc'. }
        split; [split; [done | intros Hf; destruct (Hnf Hf)]|].
        split; [split; [done | intros (_ & _ & Hn); destruct (Hc' Hn)]|].
        split; [split; [intros _; by repeat split | done]|].
        split; [done | by intros [_ ?]].
    + split; [split; [done | intros Hf; destruct (Hnf Hf)]|].
      split; [split; [done | by intros (_ & ? & _)]|].
      split; [split; [done | by intros (_ & ? & _)]|].
      split; [intros _; by split | done].
Qed.

Lemma render_modes_witness :
  inGrid (slot_i (slotOf lateSession (2, 2)), slot_j (slotOf lateSession (2, 2)))
  /\ slot_mode (slotOf lateSession (2, 2)) = Glitching.
Proof.
  destruct (render_modes lateSession (slotOf lateSession (2, 2)))
    as (Hin & _ & Hg & _); [reflexivity | reflexivity | |].
  { apply (list_elem_of_lookup_2 _ 32%nat). by vm_compute. }
  split; [exact Hin|]. apply Hg. split; [|split].
  - intros (v & Hv & Hpos). vm_compute in Hv. injection Hv as <-. lia.
  - reflexivity.
  - vm_compute. constructor.
Defined.

(** ** One callback of the wave (script.js 251-260) *)

(** The cells that a call appends come after those of any earlier state. *)
Lemma spreadGlitch_extends (i j depth : Z) (s0 s : State) :
  (exists l, glitchCells s = glitchCells s0 ++ l) ->
  exists l, glitchCells (spreadGlitch i j depth s) = glitchCells s0 ++ l.
Proof.
  intros (l & Hl).
  destruct (spreadGlitch_cases i j depth s) as [-> | (_ & _ & _ & ->)];
    [by exists l|]. state_simpl. exists (l ++ [(i, j)]).
  by rewrite Hl, app_assoc.
Qed.

Lemma spreadGlitch_appends (c : Z * Z) (i j depth : Z) (s0 s : State) :
  (exists l, glitchCells s = glitchCells s0 ++ l /\ c ∈ l) ->
  exists l, glitchCells (spreadGlitch i j depth s) = glitchCells s0 ++ l
            /\ c ∈ l.
Proof.
  intros (l & Hl & Hc).
  destruct (spreadGlitch_cases i j depth s) as [-> | (_ & _ & _ & ->)];
    [by exists l|]. state_simpl. exists (l ++ [(i, j)]).
  rewrite Hl, app_assoc. split; [done|]. apply elem_of_app. by left.
Qed.

Lemma spreadGlitch_appends_self (i j depth : Z) (s0 s : State) :
  0 < depth -> inGrid (i, j) -> filled (grid s) (i, j) ->
  (exists l, glitchCells s = glitchCells s0 ++ l) ->
  exists l, glitchCells (spreadGlitch i j depth s) = glitchCells s0 ++ l
            /\ (i, j) ∈ l.
Proof.
  intros Hd [Hi Hj] Hf (l & Hl). unfold spreadGlitch, filled in *.
  simpl in *.
  destruct (Z.leb_spec depth 0); [lia|].
  destruct (Z.ltb_spec i 0); [lia|].
  destruct (Z.geb_spec i cols); [lia|].
  destruct (Z.ltb_spec j 0); [lia|].
  destruct (Z.geb_spec j rows); [lia|].
  rewrite Hf. simpl. exists (l ++ [(i, j)]). rewrite Hl, app_assoc.
  split; [done|]. apply elem_of_app. right. by left.
Qed.

(** The callback of a cell with depth 2 or more appends every filled
    neighbour that lies in the grid. *)
Lemma spreadCallback_appends (i j depth di dj : Z) (s : State) :
  2 <= depth -> -1 <= di <= 1 -> -1 <= dj <= 1 -> di <> 0 \/ dj <> 0 ->
  inGrid (i + di, j + dj) -> filled (grid s) (i + di, j + dj) ->
  exists l, glitchCells (spreadCallback i j depth s) = glitchCells s ++ l
            /\ (i + di, j + dj) ∈ l.
Proof.
  intros Hd Hdi Hdj Hne Hin Hf. rewrite spreadCallback_unfold.
  assert (di = -1 \/ di = 0 \/ di = 1) as Hdi' by lia.
  assert (dj = -1 \/ dj = 0 \/ dj = 1) as Hdj' by lia.
  destruct Hdi' as [-> | [-> | ->]]; destruct Hdj' as [-> | [-> | ->]];
    try lia;
    repeat first
      [ apply spreadGlitch_appends_self;
        [lia | exact Hin | by rewrite ?spreadGlitch_grid |]
      | apply spreadGlitch_appends ];
    repeat apply spreadGlitch_extends; exists []; by rewrite app_nil_r.
Qed.

(** X17: a callback that the host runs was due; it leaves the grid, the
    session's flag and start time, the counters and the clock alone, takes
    itself off the queue, and appends one glitch cell and one callback for
    each call that passes the gate: every such callback sits on a filled
    neighbour in the grid, is due 40 ms later and has a depth one less than
    the callback that registered it, still positive; and when the callback
    that runs has a depth of 2 or more, every filled neighbour in the grid
    is among the cells it appends. *)
Theorem callback_effect (s s' : State) (tm : Timer) (rest : list Timer) :
  timers s = tm :: rest -> fireTimer s = Some s' ->
  (tm_due tm <= clock s)%Q
  /\ grid s' = grid s /\ clock s' = clock s
  /\ glitchActive s' = glitchActive s /\ glitchStart s' = glitchStart s
  /\ beatFlash s' = beatFlash s /\ playing s' = playing s
  /\ exists new : list Timer,
       timers s' = rest ++ new
       /\ glitchCells s'
          = glitchCells s ++ ((fun x => (tm_i x, tm_j x)) <$> new)
       /\ Forall (fun x =>
            tm_depth x = tm_depth tm - 1 /\ 0 < tm_depth x
            /\ tm_due x = (clock s + 40)%Q
            /\ ringDist (tm_i x, tm_j x) (tm_i tm, tm_j tm) = 1
            /\ inGrid (tm_i x, tm_j x)
            /\ filled (grid s) (tm_i x, tm_j x)) new
       /\ (forall di dj : Z,
             2 <= tm_depth tm -> -1 <= di <= 1 -> -1 <= dj <= 1 ->
             di <> 0 \/ dj <> 0 ->
             inGrid (tm_i tm + di, tm_j tm + dj) ->
             filled (grid s) (tm_i tm + di, tm_j tm + dj) ->
             (tm_i tm + di, tm_j tm + dj)
             ∈ (fun x => (tm_i x, tm_j x)) <$> new).
Proof.
  intros Ht. unfold fireTimer. rewrite Ht.
  destruct (Qle_bool (tm_due tm) (clock s)) eqn:Hdue; [|done].
  intros [= <-]. apply Qle_bool_iff in Hdue. split; [exact Hdue|].
  cut (let x := spreadCallback (tm_i tm) (tm_j tm) (tm_depth tm)
                  (set_timers rest s) in
    grid x = grid s /\ clock x = clock s
    /\ glitchActive x = glitchActive s /\ glitchStart x = glitchStart s
    /\ beatFlash x = beatFlash s /\ playing x = playing s
    /\ exists new : list Timer,
         timers x = rest ++ new
         /\ glitchCells x
            = glitchCells s ++ ((fun y => (tm_i y, tm_j y)) <$> new)
         /\ Forall (fun y =>
              tm_depth y = tm_depth tm - 1 /\ 0 < tm_depth y
              /\ tm_due y = (clock s + 40)%Q
              /\ ringDist (tm_i y, tm_j y) (tm_i tm, tm_j tm) = 1
              /\ inGrid (tm_i y, tm_j y)
              /\ filled (grid s) (tm_i y, tm_j y)) new).
  { cbv zeta. intros (Hg & Hc & Ha & Hst & Hbf & Hp & new & Htm & Hcells & Hnew).
    repeat (split; [done|]). exists new. repeat (split; [done|]).
    intros di dj Hd Hdi Hdj Hne Hin Hf.
    destruct (spreadCallback_appends (tm_i tm) (tm_j tm) (tm_depth tm) di dj
                (set_timers rest s) Hd Hdi Hdj Hne Hin Hf) as (l & Hl & Hc').
    rewrite Hcells in Hl. revert Hl. state_simpl. intros Hl.
    apply app_inv_head in Hl. by rewrite Hl. }
  cbv zeta.
  apply (spreadCallback_preserves (fun x =>
    grid x = grid s /\ clock x = clock s
    /\ glitchActive x = glitchActive s /\ glitchStart x = glitchStart s
    /\ beatFlash x = beatFlash s /\ playing x = playing s
    /\ exists new : list Timer,
         timers x = rest ++ new
         /\ glitchCells x
            = glitchCells s ++ ((fun y => (tm_i y, tm_j y)) <$> new)
         /\ Forall (fun y =>
              tm_depth y = tm_depth tm - 1 /\ 0 < tm_depth y
              /\ tm_due y = (clock s + 40)%Q
              /\ ringDist (tm_i y, tm_j y) (tm_i tm, tm_j tm) = 1
              /\ inGrid (tm_i y, tm_j y)
              /\ filled (grid s) (tm_i y, tm_j y)) new)).
  - state_simpl. repeat (split; [done|]). exists [].
    by rewrite !app_nil_r.
  - intros di dj x Hdi Hdj Hne (Hg & Hc & Ha & Hst & Hbf & Hp & new & Htm & Hcells & Hnew).
    destruct (spreadGlitch_frame (tm_i tm + di) (tm_j tm + dj)
                (tm_depth tm - 1) x)
      as (-> & -> & -> & -> & _ & _ & -> & ->).
    repeat (split; [done|]).
    destruct (spreadGlitch_cases (tm_i tm + di) (tm_j tm + dj)
                (tm_depth tm - 1) x) as [-> | (Hpos & Hin & Hf & ->)].
    + by exists new.
    + exists (new ++ [mkTimer (clock x + 40)%Q (tm_i tm + di) (tm_j tm + dj)
                        (tm_depth tm - 1)]).
      state_simpl. rewrite Htm, Hcells, fmap_app, !app_assoc.
      split; [done|]. split; [done|]. apply Forall_app. split; [done|].
      apply Forall_singleton. cbn [tm_depth tm_due tm_i tm_j].
      rewrite Hc, <- Hg. repeat (split; [done|]). split; [|done].
      unfold ringDist. cbn [fst snd]. lia.
Qed.

Lemma callback_effect_witness :
  exists s',
    fireTimer lateSession = Some s'
    /\ timers s' = [mkTimer 1540 3 3 2]
    /\ glitchCells s' = [(2, 2); (3, 3)].
Proof.
  destruct (fireTimer lateSession) as [s'|] eqn:Hfire;
    [|vm_compute in Hfire; discriminate Hfire].
  destruct (callback_effect lateSession s' (mkTimer 40 2 2 3) [])
    as (_ & _ & _ & _ & _ & _ & _ & new & Htm & Hcells & _);
    [reflexivity | exact Hfire |].
  exists s'. split; [reflexivity|]. clear new Htm Hcells.
  vm_compute in Hfire. injection Hfire as <-. split; reflexivity.
Defined.
